(** * BanyanDB: entity routing, stream life cycle and liaison write handler

    A shallow embedding of the Go sources
    - [pkg/partition] (entity locator: [NewEntityLocator], [Find], [Locate],
      [GetTagByOffset]),
    - [banyand/stream] ([stream.Close], [openStream]),
    - [banyand/liaison/grpc] ([seriesInfo.Rev], [TraceServer.Write]),
    - [banyand/tsdb] test ([TestOpenDatabase], [setUp], [validateDirectory]),
    together with the properties the specification states about them.
    Callees that live in packages outside these sources are parameters of
    the definitions that call them, or are modelled from the specification
    where a property is about what they compute.

    Conventions.  A Go [int]/[uint32]/[uint64] is a [Z] with its wrap-around
    written out where a conversion happens.  A Go pointer is an [option]
    ([None] is [nil]).  A Go function returning [(T, error)] returns a pair
    whose second component is [option error] ([None] is the [nil] error).
    A run-time panic (index out of range, nil dereference) is the [Panics]
    outcome. *)

From Stdlib Require Import ZArith Lia.
From Stdlib.Strings Require Import Byte Ascii.
From stdpp Require Import base option list strings gmap pretty.

Open Scope Z_scope.

(** ** Outcomes of Go calls: a value is returned or the goroutine panics *)

Inductive Outcome (A : Type) : Type :=
| Returns (a : A)
| Panics.
Arguments Returns {A} a.
Arguments Panics {A}.

#[global] Instance Outcome_ret : MRet Outcome := fun A a => Returns a.
#[global] Instance Outcome_bind : MBind Outcome := fun A B k m =>
  match m with
  | Returns a => k a
  | Panics => Panics
  end.

Ltac run_outcome H := cbn [mbind Outcome_bind] in H.

(** [len(s)] of a slice, as a Go [int]. *)
Definition len {A} (s : list A) : Z := Z.of_nat (length s).

(** [s[i]]: Go panics when the index is negative or not below [len(s)]. *)
Definition index {A} (s : list A) (i : Z) : Outcome A :=
  if (i <? 0) || (len s <=? i) then Panics
  else match s !! Z.to_nat i with
       | Some x => Returns x
       | None => Panics
       end.

(** [s[i] = x]: the same bounds check, then the in-place update. *)
Definition store {A} (s : list A) (i : Z) (x : A) : Outcome (list A) :=
  if (i <? 0) || (len s <=? i) then Panics
  else Returns (<[Z.to_nat i := x]> s).

(** ** Errors

    [errors.New] makes a sentinel, [errors.Wrap] adds a message around a
    cause.  Errors made by callees that are outside these sources are
    [ErrForeign]; several errors reported as one are an [ErrAggregate]. *)

#[warnings="-register-all"]
Inductive error : Type :=
| ErrMalformedElement
| ErrWrap (cause : error) (msg : string)
| ErrForeign (msg : string)
| ErrAggregate (errs : list error).

(** [errors.Cause]: the innermost error of a chain of wraps. *)
Fixpoint Cause (err : error) : error :=
  match err with
  | ErrWrap cause _ => Cause cause
  | _ => err
  end.

(** [errors.Is(err, ErrMalformedElement)]. *)
Definition IsMalformedElement (err : error) : bool :=
  match Cause err with
  | ErrMalformedElement => true
  | _ => false
  end.

(** ** Bytes *)

Definition Z_of_byte (b : byte) : Z := Z.of_N (Byte.to_N b).

Definition byte_of_Z (z : Z) : byte :=
  match Byte.of_N (Z.to_N (z mod 256)) with
  | Some b => b
  | None => x00
  end.

(** ** Protobuf messages read by the entity locator

    Only the getters the locator calls are kept.  Getters of generated
    protobuf code accept a nil receiver and answer the zero value. *)

Module modelv1.
Section TagFamily.
Context {TagValue : Type}.

(** [TagFamilyForWrite]: the tags of one family of a write, each a
    [*TagValue]. *)
Record TagFamilyForWrite : Type := { Tags : list (option TagValue) }.

Definition GetTags (family : option TagFamilyForWrite) : list (option TagValue) :=
  match family with
  | Some f => Tags f
  | None => []
  end.

End TagFamily.
Arguments TagFamilyForWrite : clear implicits.
End modelv1.

Module databasev1.

(** [Entity]: the declared tag names that make up an entity. *)
Record Entity : Type := { TagNames : list string }.

Definition GetTagNames (entity : option Entity) : list string :=
  match entity with
  | Some e => TagNames e
  | None => []
  end.

End databasev1.

Module tsdb.

(** [type Entry []byte] and [type Entity []Entry]. *)
Abbreviation Entry := (list byte).
Abbreviation Entity := (list (list byte)).

(** Modelled from the spec: [Entity.Marshal] is not in the sources; the
    spec gives the key that is hashed as [concat(entityBytes)], the
    entries joined in order with no separator.  A nil entity has no
    entries. *)
Definition Marshal (e : option Entity) : list byte :=
  match e with
  | Some entries => concat entries
  | None => []
  end.

(** Modelled from the spec: a block is not in the sources.  By the spec
    a block is "created open", "appended to while open", and "closed and
    flushed to durable storage" on store shutdown; "once a block is
    closed its bytes are never mutated".  A block: whether it is open, the
    records appended to it that are not yet in durable storage, and the
    records that are. *)
Record Block : Type := {
  blockOpen : bool;
  buffered : list (list byte);
  durable : list (list byte)
}.

(** Modelled from the spec: the shards of a database are not in the
    sources.  One shard: its id, the blocks of its series store, whether
    the series store has been closed, and the error that closing it
    reports. *)
Record Shard : Type := {
  ID : Z;
  blocks : list Block;
  seriesClosed : bool;
  shardCloseError : option error
}.

(** Modelled from the spec: a database is the handle to all its shards. *)
Record Database : Type := { sLst : list Shard }.

(** Modelled from the spec: closing a block flushes it when it is open;
    a closed block is left as it is. *)
Definition closeBlock (b : Block) : Block :=
  if blockOpen b
  then {| blockOpen := false; buffered := []; durable := durable b ++ buffered b |}
  else b.

(** Modelled from the spec: closing the series store of one shard flushes
    its open blocks; a close that fails reports its error and leaves the
    store as it is (a "partial shard-close"). *)
Definition closeShard (s : Shard) : Shard * option error :=
  match shardCloseError s with
  | Some err => (s, Some err)
  | None =>
      ({| ID := ID s; blocks := map closeBlock (blocks s); seriesClosed := true;
          shardCloseError := None |}, None)
  end.

(** Modelled from the spec: closing the shards in turn, going on after a
    failure and keeping every error. *)
Fixpoint closeShards (shards : list Shard) : list Shard * list error :=
  match shards with
  | [] => ([], [])
  | s :: rest =>
      let '(s', err) := closeShard s in
      let '(rest', errs) := closeShards rest in
      (s' :: rest', match err with Some e => e :: errs | None => errs end)
  end.

(** Modelled from the spec: [Database.Close] is not in the sources; by the
    spec it "must close every shard's Series Store (flushing open blocks)"
    and "errors from partial shard-close are aggregated and returned, not
    swallowed". *)
Definition Close (d : Database) : Database * option error :=
  let '(shards, errs) := closeShards (sLst d) in
  ({| sLst := shards |},
   match errs with
   | [] => None
   | _ => Some (ErrAggregate errs)
   end).



End tsdb.

Module index.

(** Modelled from the spec: the index writer is not in the sources.
    Whether it has been released, and the error that closing it reports. *)
Record Writer : Type := { released : bool; writerCloseError : option error }.

(** Modelled from the spec: [Writer.Close] is not in the sources; by the
    spec closing releases the index writer.  Like every [Close() error] it
    can report an error, and a close that fails leaves the writer as it
    is. *)
Definition Close (w : Writer) : Writer * option error :=
  match writerCloseError w with
  | Some err => (w, Some err)
  | None => ({| released := true; writerCloseError := None |}, None)
  end.

End index.

Module common.

(** Modelled from the spec: the type [common.ShardID] is not in the
    sources; a shard id is "a non-negative integer id" below the shard
    count, an unsigned 32-bit number like [shardNum].  [common.ShardID(id)]
    converts a [uint] to it. *)
Definition ShardID (id : Z) : Z := id mod 2 ^ 32.

End common.

(** ** Package partition *)

Module partition.

Record TagLocator : Type := { FamilyOffset : Z; TagOffset : Z }.

Abbreviation EntityLocator := (list TagLocator).

Definition ErrFamilyOffset : error :=
  ErrWrap ErrMalformedElement "tag family offset is invalid".

Definition ErrTagOffset : error :=
  ErrWrap ErrMalformedElement "tag offset is invalid".

Section Locator.

(** The callees of the locator that live in other packages. *)
Context {TagValue TagFamilySpec TagSpec : Type}.

(** [pbv1.FindTagByName(families, name)]: family index, tag index and the
    tag's spec, nil when the name is not found. *)
Variable FindTagByName : list TagFamilySpec -> string -> Z * Z * option TagSpec.

(** [pbv1.MarshalIndexFieldValue(tag)]: the canonical bytes of a tag value,
    or an error. *)
Variable MarshalIndexFieldValue : option TagValue -> tsdb.Entry * option error.

(** [convert.Hash(key)]: the 64-bit hash of a key; the result is taken
    modulo [2^64] where it is used. *)
Variable Hash : list byte -> Z.

Local Abbreviation Payload := (list (option (modelv1.TagFamilyForWrite TagValue))).

Definition NewEntityLocator (families : list TagFamilySpec)
    (entity : option databasev1.Entity) : EntityLocator :=
  fold_left
    (fun locator tagInEntity =>
       let '(fIndex, tIndex, tag) := FindTagByName families tagInEntity in
       match tag with
       | Some _ => locator ++ [{| FamilyOffset := fIndex; TagOffset := tIndex |}]
       | None => locator
       end)
    (databasev1.GetTagNames entity) [].

Definition GetTagByOffset (value : Payload) (fIndex tIndex : Z)
    : Outcome (option TagValue * option error) :=
  if len value <=? fIndex then Returns (None, Some ErrFamilyOffset)
  else
    family ← index value fIndex;
    if len (modelv1.GetTags family) <=? tIndex then Returns (None, Some ErrTagOffset)
    else
      tag ← index (modelv1.GetTags family) tIndex;
      Returns (tag, None).

(** The body of [for i, index := range e] in [Find]: [entity] is the slice
    made before the loop, filled up to position [i]. *)
Fixpoint Find_loop (value : Payload) (i : Z) (e : list TagLocator)
    (entity : tsdb.Entity) : Outcome (option tsdb.Entity * option error) :=
  match e with
  | [] => Returns (Some entity, None)
  | index :: rest =>
      r ← GetTagByOffset value (FamilyOffset index) (TagOffset index);
      match r with
      | (_, Some err) => Returns (None, Some err)
      | (tag, None) =>
          match MarshalIndexFieldValue tag with
          | (_, Some errMarshal) => Returns (None, Some errMarshal)
          | (entry, None) =>
              entity' ← store entity i entry;
              Find_loop value (i + 1) rest entity'
          end
      end
  end.

Definition Find (e : EntityLocator) (value : Payload)
    : Outcome (option tsdb.Entity * option error) :=
  Find_loop value 0 e (replicate (length e) []).

(** Modelled from the spec: [partition.ShardID] is not in the sources; the
    spec gives [shardID = hash(key) mod shardNum] for [shardNum >= 1].  The
    call in [Locate] shows that it can also answer an error, which is the
    answer here for a shard count of zero. *)
Definition ShardID (key : list byte) (shardNum : Z) : Z * option error :=
  if shardNum <? 1 then (0, Some (ErrForeign "invalid shardNum"))
  else ((Hash key mod 2 ^ 64) mod shardNum, None).

Definition Locate (e : EntityLocator) (value : Payload) (shardNum : Z)
    : Outcome (option tsdb.Entity * Z * option error) :=
  r ← Find e value;
  match r with
  | (_, Some err) => Returns (None, 0, Some err)
  | (entity, None) =>
      match ShardID (tsdb.Marshal entity) shardNum with
      | (_, Some err) => Returns (None, 0, Some err)
      | (id, None) => Returns (entity, common.ShardID id, None)
      end
  end.

(** *** Reading a payload at a locator pair, without the guards *)

(** The tags of family [fIndex], empty when there is no such family. *)
Definition FamilyTags (value : Payload) (fIndex : Z) : list (option TagValue) :=
  match value !! Z.to_nat fIndex with
  | Some family => modelv1.GetTags family
  | None => []
  end.

(** A pair is in range for a payload when both offsets address an element. *)
Definition InRange (value : Payload) (ix : TagLocator) : bool :=
  (0 <=? FamilyOffset ix) && (FamilyOffset ix <? len value)
  && (0 <=? TagOffset ix) && (TagOffset ix <? len (FamilyTags value (FamilyOffset ix))).

(** The error [GetTagByOffset] answers for a pair that is out of range. *)
Definition OffsetError (value : Payload) (ix : TagLocator) : error :=
  if len value <=? FamilyOffset ix then ErrFamilyOffset else ErrTagOffset.

(** The tag a pair in range addresses. *)
Definition TagAt (value : Payload) (ix : TagLocator) : option TagValue :=
  match FamilyTags value (FamilyOffset ix) !! Z.to_nat (TagOffset ix) with
  | Some tag => tag
  | None => None
  end.

(** The pair's tag marshals without an error. *)
Definition Marshals (value : Payload) (ix : TagLocator) : Prop :=
  (MarshalIndexFieldValue (TagAt value ix)).2 = None.

(** The entry [Find] stores for a pair. *)
Definition entryOf (value : Payload) (ix : TagLocator) : tsdb.Entry :=
  (MarshalIndexFieldValue (TagAt value ix)).1.

(** What [NewEntityLocator] keeps of one declared tag name. *)
Definition resolve (families : list TagFamilySpec) (name : string) : option TagLocator :=
  match FindTagByName families name with
  | (fIndex, tIndex, Some _) => Some {| FamilyOffset := fIndex; TagOffset := tIndex |}
  | (_, _, None) => None
  end.

End Locator.
End partition.

(** ** Callees of the locator, for running it on concrete writes *)

Module pbv1.

(** Modelled from the spec: a tag family specification is a named,
    ordered group of tags. *)
Record TagSpec : Type := { Name : string }.

Record TagFamilySpec : Type := { FamilyName : string; FamilyTags : list TagSpec }.

(** Modelled from the spec: the scan of one family for a tag name. *)
Fixpoint findInFamily (tags : list TagSpec) (ti : Z) (tagName : string)
    : option (Z * TagSpec) :=
  match tags with
  | [] => None
  | tag :: rest =>
      if String.eqb tagName (Name tag) then Some (ti, tag)
      else findInFamily rest (ti + 1) tagName
  end.

(** Modelled from the spec: the scan of the families from index [fi]. *)
Fixpoint findFrom (families : list TagFamilySpec) (fi : Z) (tagName : string)
    : Z * Z * option TagSpec :=
  match families with
  | [] => (0, 0, None)
  | family :: rest =>
      match findInFamily (FamilyTags family) 0 tagName with
      | Some (ti, tag) => (fi, ti, Some tag)
      | None => findFrom rest (fi + 1) tagName
      end
  end.

(** Modelled from the spec: [pbv1.FindTagByName] is not in the sources; the
    spec resolves a tag name "to a (familyIndex, tagIndex) pair by scanning
    family specs", here in order, the first tag of that name. *)
Definition FindTagByName (families : list TagFamilySpec) (tagName : string)
    : Z * Z * option TagSpec :=
  findFrom families 0 tagName.

(** Modelled from the spec: the values of a tag that the spec names,
    strings and numbers. *)
Inductive TagValue : Type :=
| Str (s : string)
| Int (v : Z).

(** Modelled from the spec: 8 bytes, big-endian. *)
Definition putUint64 (n : Z) : list byte :=
  map (fun k => byte_of_Z (n / 2 ^ (8 * k))) [7; 6; 5; 4; 3; 2; 1; 0].

(** Modelled from the spec: [pbv1.MarshalIndexFieldValue] is not in the
    sources; the spec has "strings encoded as UTF-8 bytes" and "numeric
    values encoded so that byte-lexicographic order matches numeric order"
    (big-endian, sign bit flipped).  A nil tag carries no value to encode:
    that is the error [Find] checks for after the call. *)
Definition MarshalIndexFieldValue (tag : option TagValue) : tsdb.Entry * option error :=
  match tag with
  | Some (Str s) => (String.list_byte_of_string s, None)
  | Some (Int v) => (putUint64 ((v + 2 ^ 63) mod 2 ^ 64), None)
  | None => ([], Some (ErrForeign "the tag type can not be an index field value"))
  end.

End pbv1.

Module convert.

Definition fnvOffset64 : Z := 14695981039346656037.
Definition fnvPrime64 : Z := 1099511628211.

(** Modelled from the spec: [convert.Hash] is not in the sources; the spec
    asks for one fixed "64-bit FNV-style" hash of the key bytes: FNV-1a. *)
Definition Hash (key : list byte) : Z :=
  fold_left (fun h b => (Z.lxor h (Z_of_byte b) * fnvPrime64) mod 2 ^ 64) key fnvOffset64.

End convert.

(** ** Package encoding: the plain codec handed to the database *)

Module encoding.

Definition ErrCorruptData : error := ErrForeign "corrupt data".

(** A column value is a run of raw bytes. *)
Abbreviation Value := (list byte).

(** Modelled from the spec: the length of a value in a run, written as
    [binary.PutUvarint] writes a number: 7 bits a byte, the low bits first,
    the high bit set on every byte but the last. *)
Fixpoint putUvarintFuel (fuel : nat) (n : Z) : list byte :=
  match fuel with
  | O => [byte_of_Z n]
  | S fuel' =>
      if n <? 128 then [byte_of_Z n]
      else byte_of_Z (128 + n mod 128) :: putUvarintFuel fuel' (n / 128)
  end.

(** Modelled from the spec: a number of [k] bits takes no more than [k]
    further bytes. *)
Definition putUvarint (n : Z) : list byte := putUvarintFuel (Z.to_nat (Z.log2 n)) n.

(** Modelled from the spec: reading a length back, as [binary.Uvarint]
    does: the number at the front of a run and the bytes after it; [None]
    when the run ends inside the number. *)
Fixpoint getUvarint (data : list byte) (shift acc : Z) : option (Z * list byte) :=
  match data with
  | [] => None
  | b :: rest =>
      let v := Z_of_byte b in
      if v <? 128 then Some (acc + v * 2 ^ shift, rest)
      else getUvarint rest (shift + 7) (acc + (v - 128) * 2 ^ shift)
  end.

(** Modelled from the spec: the encoder of [NewPlainEncoderPool] is not in
    the sources.  The spec has an encoder that accepts raw values and
    returns a byte run, with the values passed through as they are; a chunk
    size of 0 means unbounded, and past the bound "the caller must start a
    new chunk".  Each value is framed by its length so that the run can be
    cut into values again. *)
Record plainEncoder : Type := { buff : list byte; valueSize : Z }.

(** Modelled from the spec: a new encoder holds an empty run. *)
Definition NewPlainEncoder (size : Z) : plainEncoder :=
  {| buff := []; valueSize := size |}.

(** Modelled from the spec: a value in a run, its length and then its
    bytes as they are. *)
Definition frame (value : Value) : list byte := putUvarint (len value) ++ value.

(** Modelled from the spec: the encoder accepts a value. *)
Definition Append (enc : plainEncoder) (value : Value) : plainEncoder :=
  {| buff := buff enc ++ frame value; valueSize := valueSize enc |}.

(** Modelled from the spec: the run has reached the chunk size; never
    with the size 0, which means unbounded. *)
Definition IsFull (enc : plainEncoder) : bool :=
  negb (valueSize enc =? 0) && (valueSize enc <=? len (buff enc)).

(** Modelled from the spec: the encoder returns its byte run. *)
Definition Encode (enc : plainEncoder) : list byte := buff enc.

(** Modelled from the spec: reading the frame at the front of a run, its
    value and the bytes after it; [None] when the length or the value is
    cut short. *)
Definition readFrame (data : list byte) : option (Value * list byte) :=
  match getUvarint data 0 0 with
  | Some (n, rest) =>
      if (Z.to_nat n <=? length rest)%nat
      then Some (take (Z.to_nat n) rest, drop (Z.to_nat n) rest)
      else None
  | None => None
  end.

(** Modelled from the spec: cutting a run into its values.  Every frame
    takes at least one byte, so a fuel above the number of bytes is never
    used up. *)
Fixpoint decodeFrames (fuel : nat) (data : list byte) : option (list Value) :=
  match fuel with
  | O => None
  | S fuel' =>
      match data with
      | [] => Some []
      | _ =>
          match readFrame data with
          | Some (value, rest) =>
              match decodeFrames fuel' rest with
              | Some values => Some (value :: values)
              | None => None
              end
          | None => None
          end
      end
  end.

(** Modelled from the spec: the decoder of [NewPlainDecoderPool] is not in
    the sources.  The spec has a decoder that accepts an encoded byte run
    and reproduces the values in order, and "decoding malformed or
    truncated input fails with a CorruptData error; it is never silently
    partial". *)
Definition Decode (data : list byte) : option (list Value) * option error :=
  match decodeFrames (S (length data)) data with
  | Some values => (Some values, None)
  | None => (None, Some ErrCorruptData)
  end.

(** [tsdb.EncodingMethod]: the encoder and decoder factories handed to a
    database. *)
Record EncodingMethod : Type := {
  EncoderPool : unit -> plainEncoder;
  DecoderPool : unit -> list byte -> option (list Value) * option error
}.

(** Modelled from the spec: the pools are factories "parameterized by a
    chunk-size bound, producing stateless codecs"; every [Get] answers a
    codec of its own. *)
Definition NewPlainEncoderPool (size : Z) : unit -> plainEncoder :=
  fun _ => NewPlainEncoder size.

Definition NewPlainDecoderPool (size : Z) : unit -> list byte -> option (list Value) * option error :=
  fun _ => Decode.

End encoding.

(** ** Package stream *)

Module stream.

(** a chunk is 1MB *)
Definition chunkSize : Z := Z.shiftl 1 20.

Section Stream.

(** The index writer, of package index, is not in the sources: its type
    and its [Close] are parameters. *)
Context {Writer : Type}.

(** [w.Close()] of the index writer: the writer after the call and the
    error it returns. *)
Variable indexWriter_Close : Writer -> Writer * option error.

(** The fields of [stream] that [Close] and the stream id use. *)
Record stream : Type := {
  name : string;
  group : string;
  db : tsdb.Database;
  indexWriter : Writer
}.

Definition Close (s : stream) : stream * option error :=
  let '(w, _) := indexWriter_Close (indexWriter s) in
  let '(d, err) := tsdb.Close (db s) in
  ({| name := name s; group := group s; db := d; indexWriter := w |}, err).

End Stream.
Arguments stream : clear implicits.

(** The encoding method [openStream] hands to [tsdb.OpenDatabase]. *)
Definition openStream_EncodingMethod : encoding.EncodingMethod :=
  {| encoding.EncoderPool := encoding.NewPlainEncoderPool chunkSize;
     encoding.DecoderPool := encoding.NewPlainDecoderPool chunkSize |}.

Definition formatStreamID (name group : string) : string :=
  name +:+ ":" +:+ group.

End stream.

(** ** Package grpc of the liaison *)

Module grpc.

(** The part of a series event the write handler reads. *)
Record SeriesEvent : Type := { FieldNamesCompositeSeriesId : list string }.

(** [message.Data()]: the bytes of a series event, or a value of another
    type. *)
Inductive MessageData : Type :=
| DataBytes (seriesEvent : SeriesEvent)
| DataOther.

(** [seriesInfo.Rev]: the package variable [seriesEventData] before the
    call, and after it.  The log lines are left out. *)
Definition Rev (seriesEventData : option SeriesEvent) (message : MessageData)
    : option SeriesEvent :=
  match message with
  | DataBytes seriesEvent => Some seriesEvent
  | DataOther => seriesEventData
  end.

(** The value of [seriesEventData] after the bus has delivered [messages]
    in order to a process that starts with the nil pointer. *)
Definition delivered (messages : list MessageData) : option SeriesEvent :=
  fold_left Rev messages None.

(** The last series event among the messages, if there is one. *)
Fixpoint lastSeriesEvent (messages : list MessageData) : option SeriesEvent :=
  match messages with
  | [] => None
  | m :: rest =>
      match lastSeriesEvent rest with
      | Some ev => Some ev
      | None => match m with DataBytes ev => Some ev | DataOther => None end
      end
  end.

Section TraceServer.

(** The flatbuffers messages and the analyzer are outside these sources. *)
Context {Metadata Schema WriteEntity : Type}.

(** [writeEntity.MetaData(nil)]. *)
Variable MetaData : WriteEntity -> Metadata.

(** [ana.BuildTraceSchema(ctx, metadata)]. *)
Variable BuildTraceSchema : Metadata -> option Schema * option error.

(** [schema.FieldSubscript(name)]. *)
Variable FieldSubscript : Schema -> string -> bool * Z.

(** [writeEntity.Entity(nil).Fields(&field, sub)]. *)
Variable EntityFields : WriteEntity -> Z -> bool.

(** What one [Recv] on the request stream answers; after the last element
    of the list of answers [Recv] answers [io.EOF]. *)
Inductive RecvResult : Type :=
| RecvEntity (writeEntity : WriteEntity)
| RecvError (err : error).

(** [Send] of the response number [n] (from 0) on this stream. *)
Variable Send : nat -> option error.

(** The loop over the composite series id of [seriesEventData]: [true]
    when it runs to its end, [false] when it leaves [Write] by
    [return nil]. *)
Fixpoint checkSeriesId (schema : option Schema) (writeEntity : WriteEntity)
    (ids : list string) : Outcome bool :=
  match ids with
  | [] => Returns true
  | id :: rest =>
      match schema with
      | None => Panics
      | Some sch =>
          let '(defined, sub) := FieldSubscript sch id in
          if defined then
            if EntityFields writeEntity sub then checkSeriesId schema writeEntity rest
            else Returns false
          else checkSeriesId schema writeEntity rest
      end
  end.

(** [TraceServer.Write] over a span in which the bus delivers no series
    event: the number of responses sent and the error returned.  Each turn
    of the [for] loop takes one answer of [Recv].  [seriesEventData] is
    the value of the package variable during the span, a nil pointer until
    a series event has been delivered.  [WriteRun] below is the handler
    with deliveries between its turns. *)
Fixpoint Write_loop (seriesEventData : option SeriesEvent)
    (requests : list RecvResult) (sent : nat) : Outcome (nat * option error) :=
  match requests with
  | [] => Returns (sent, None)
  | RecvError err :: _ => Returns (sent, Some err)
  | RecvEntity writeEntity :: rest =>
      match BuildTraceSchema (MetaData writeEntity) with
      | (_, Some ruleError) => Returns (sent, Some ruleError)
      | (schema, None) =>
          match seriesEventData with
          | None => Panics
          | Some ev =>
              ok ← checkSeriesId schema writeEntity (FieldNamesCompositeSeriesId ev);
              if ok : bool then
                match Send sent with
                | Some errSend => Returns (sent, Some errSend)
                | None => Write_loop seriesEventData rest (S sent)
                end
              else Returns (sent, None)
          end
      end
  end.

Definition Write (seriesEventData : option SeriesEvent) (requests : list RecvResult)
    : Outcome (nat * option error) :=
  Write_loop seriesEventData requests 0.

(** One step of a run of the process as the handler sees it: the bus
    delivers a message to [seriesInfo.Rev], or [Recv] answers the handler
    and a turn of its loop begins. *)
Inductive Step : Type :=
| Deliver (message : MessageData)
| Recv (answer : RecvResult).

(** [TraceServer.Write] in a process whose bus goes on delivering: every
    turn of the [for] loop reads the package variable [seriesEventData]
    afresh, as [seriesInfo.Rev] has left it by then.  A delivery in the
    middle of a turn is a data race on the variable and has no place in
    the list of steps. *)
Fixpoint WriteRun_loop (seriesEventData : option SeriesEvent)
    (steps : list Step) (sent : nat) : Outcome (nat * option error) :=
  match steps with
  | [] => Returns (sent, None)
  | Deliver message :: rest => WriteRun_loop (Rev seriesEventData message) rest sent
  | Recv (RecvError err) :: _ => Returns (sent, Some err)
  | Recv (RecvEntity writeEntity) :: rest =>
      match BuildTraceSchema (MetaData writeEntity) with
      | (_, Some ruleError) => Returns (sent, Some ruleError)
      | (schema, None) =>
          match seriesEventData with
          | None => Panics
          | Some ev =>
              ok ← checkSeriesId schema writeEntity (FieldNamesCompositeSeriesId ev);
              if ok : bool then
                match Send sent with
                | Some errSend => Returns (sent, Some errSend)
                | None => WriteRun_loop seriesEventData rest (S sent)
                end
              else Returns (sent, None)
          end
      end
  end.

(** A run of the process from its start, where [seriesEventData] is the
    nil pointer. *)
Definition WriteRun (steps : list Step) : Outcome (nat * option error) :=
  WriteRun_loop None steps 0.

(** What the handler meets in a run: for each answer of [Recv], the value
    of [seriesEventData] at that turn of the loop and the answer. *)
Fixpoint turnsFrom (seriesEventData : option SeriesEvent) (steps : list Step)
    : list (option SeriesEvent * RecvResult) :=
  match steps with
  | [] => []
  | Deliver message :: rest => turnsFrom (Rev seriesEventData message) rest
  | Recv answer :: rest => (seriesEventData, answer) :: turnsFrom seriesEventData rest
  end.

Definition turns (steps : list Step) : list (option SeriesEvent * RecvResult) :=
  turnsFrom None steps.

(** The answers of [Recv] in a run, and the messages delivered in it. *)
Definition received (steps : list Step) : list RecvResult :=
  omap (fun step => match step with Recv answer => Some answer | Deliver _ => None end) steps.

Definition deliveries (steps : list Step) : list MessageData :=
  omap (fun step => match step with Deliver message => Some message | Recv _ => None end) steps.

End TraceServer.

(** Callees for running the handler: the metadata is the schema's list of
    field names, a field's subscript is its position in that list, and a
    write entity carries its metadata and how many fields it has ([None]
    when the vector of fields is absent). *)
Definition sampleSubscript (fields : list string) (fieldName : string) : bool * Z :=
  match list_find (String.eqb fieldName) fields with
  | Some (i, _) => (true, Z.of_nat i)
  | None => (false, 0)
  end.

Definition sampleFields (writeEntity : list string * option Z) (sub : Z) : bool :=
  match writeEntity.2 with
  | Some _ => true
  | None => false
  end.

End grpc.

(** ** Package tsdb: the test of [OpenDatabase] *)

Module tsdb_test.

Inductive FileKind : Type := Directory | RegularFile.

(** The files of the machine: what each path names. *)
Abbreviation FS := (gmap string FileKind).

Record DatabaseOpts : Type := {
  Location : string;
  ShardNum : Z;
  EncodingMethod : encoding.EncodingMethod
}.

Section OpenDatabase.

Context {Time Database : Type}.

(** [tsdb.OpenDatabase(ctx, opts)], not in the sources: the clock it reads,
    the files before, the handle and error it answers, the files after. *)
Variable OpenDatabase : DatabaseOpts -> Time -> FS -> option Database * option error * FS.

(** The constants of package tsdb that name the directories:
    [fmt.Sprintf(shardTemplate, root, id)] and so on, and
    [now.Format(segFormat)], [now.Format(blockFormat)]. *)
Variable shardTemplate : string -> Z -> string.
Variable seriesTemplate : string -> string.
Variable segTemplate : string -> string -> string.
Variable blockTemplate : string -> string -> string.
Variable segFormat : Time -> string.
Variable blockFormat : Time -> string.

(** [test.Space]: a new temporary directory, of the name the system
    picks. *)
Definition Space (tempDir : string) (fs : FS) : string * FS :=
  (tempDir, <[tempDir := Directory]> fs).

(** The options [setUp] opens the database with. *)
Definition setUpOpts (tempDir : string) : DatabaseOpts :=
  {| Location := tempDir;
     ShardNum := 1;
     EncodingMethod :=
       {| encoding.EncoderPool := encoding.NewPlainEncoderPool 0;
          encoding.DecoderPool := encoding.NewPlainDecoderPool 0 |} |}.

(** [setUp]: the temporary directory, the database handle and the files
    after the open; [None] when a [require] assertion stops the test.  The
    set-up of the logger is taken to succeed. *)
Definition setUp (tempName : string) (now : Time) (fs : FS)
    : option (string * Database * FS) :=
  let '(tempDir, fs1) := Space tempName fs in
  let '(db, err, fs2) := OpenDatabase (setUpOpts tempDir) now fs1 in
  match err, db with
  | None, Some d => Some (tempDir, d, fs2)
  | _, _ => None
  end.

(** [validateDirectory]: all three assertions hold. *)
Definition validateDirectory (fs : FS) (dir : string) : bool :=
  match fs !! dir with
  | Some Directory => true
  | _ => false
  end.

(** [TestOpenDatabase]: [true] when the test passes.  The test reads the
    clock after the open; [now] is that reading, taken in the same segment
    and block window as the one of the open. *)
Definition TestOpenDatabase (tempName : string) (now : Time) (fs : FS) : bool :=
  match setUp tempName now fs with
  | None => false
  | Some (tempDir, _, fs') =>
      let shardPath := shardTemplate tempDir 0 in
      let seriesPath := seriesTemplate shardPath in
      let segPath := segTemplate shardPath (segFormat now) in
      validateDirectory fs' shardPath
      && validateDirectory fs' seriesPath
      && validateDirectory fs' segPath
      && validateDirectory fs' (blockTemplate segPath (blockFormat now))
  end.

End OpenDatabase.

(** Modelled from the spec: the path templates of package tsdb are not in
    the sources.  By the spec the sub-path of a shard is
    [<root>/shard-<id>]. *)
Definition sampleShard (root : string) (id : Z) : string := root +:+ "/shard-" +:+ pretty id.

End tsdb_test.

(** ** The write of the spec's scenario

    Entity tags [service] and [instance], found in family 0 at offsets 0
    and 2, and a write with the values ["svcA"], [""] and ["i-1"]. *)

Module scenario.

Definition families : list pbv1.TagFamilySpec :=
  [{| pbv1.FamilyName := "searchable";
      pbv1.FamilyTags := [{| pbv1.Name := "service" |};
                          {| pbv1.Name := "endpoint" |};
                          {| pbv1.Name := "instance" |}] |}].

Definition entity : option databasev1.Entity :=
  Some {| databasev1.TagNames := ["service"; "instance"] |}.

Definition locator : partition.EntityLocator :=
  partition.NewEntityLocator pbv1.FindTagByName families entity.

Definition payload : list (option (modelv1.TagFamilyForWrite pbv1.TagValue)) :=
  [Some {| modelv1.Tags := [Some (pbv1.Str "svcA"); Some (pbv1.Str ""); Some (pbv1.Str "i-1")] |}].

(** A write whose only tag has no value. *)
Definition payloadNilTag : list (option (modelv1.TagFamilyForWrite pbv1.TagValue)) :=
  [Some {| modelv1.Tags := [None] |}].

Definition svcA : list byte := String.list_byte_of_string "svcA".
Definition i1 : list byte := String.list_byte_of_string "i-1".

(** A shard with an open block that holds two records not yet flushed,
    and a block closed before. *)
Definition shard0 : tsdb.Shard :=
  {| tsdb.ID := 0;
     tsdb.blocks := [{| tsdb.blockOpen := true; tsdb.buffered := [svcA; i1];
                        tsdb.durable := [i1] |};
                     {| tsdb.blockOpen := false; tsdb.buffered := [];
                        tsdb.durable := [svcA] |}];
     tsdb.seriesClosed := false;
     tsdb.shardCloseError := None |}.

(** A stream with one shard that closes cleanly and an index writer whose
    close reports an error. *)
Definition streamFailingWriter : stream.stream index.Writer :=
  {| stream.name := "sw";
     stream.group := "default";
     stream.db := {| tsdb.sLst := [shard0] |};
     stream.indexWriter :=
       {| index.released := false;
          index.writerCloseError := Some (ErrForeign "index writer: close failed") |} |}.

(** Two series events: one with an empty composite series id, one whose
    composite series id is the field [service]. *)
Definition eventNoId : grpc.SeriesEvent := {| grpc.FieldNamesCompositeSeriesId := [] |}.
Definition eventService : grpc.SeriesEvent :=
  {| grpc.FieldNamesCompositeSeriesId := ["service"] |}.

(** A request stream with one write: its metadata names the field
    [service], and its entity has no vector of fields. *)
Definition requests : list (@grpc.RecvResult (list string * option Z)) :=
  [grpc.RecvEntity (["service"], None)].

(** The handler with the callees above; every [Send] succeeds. *)
Definition Write (seriesEventData : option grpc.SeriesEvent)
    (reqs : list (@grpc.RecvResult (list string * option Z))) : Outcome (nat * option error) :=
  grpc.Write fst (fun metadata => (Some metadata, None)) grpc.sampleSubscript
    grpc.sampleFields (fun _ => None) seriesEventData reqs.

(** The steps of a run with the same callees. *)
Definition WriteRun (steps : list (@grpc.Step (list string * option Z)))
    : Outcome (nat * option error) :=
  grpc.WriteRun fst (fun metadata => (Some metadata, None)) grpc.sampleSubscript
    grpc.sampleFields (fun _ => None) steps.

(** A fresh temporary directory. *)
Definition tempName : string := "/tmp/banyandb-test-1".

End scenario.

(** ** Package test: the temporary space of a test *)

Module test.

(** [p] is the directory [dir] or a path below it. *)
Definition below (dir p : string) : bool :=
  String.eqb dir p || String.prefix (dir +:+ "/") p.

(** [os.RemoveAll(dir)], every removal succeeding: [dir] and what it
    contains are gone, the other paths stay. *)
Definition RemoveAll (dir : string) (fs : gmap string tsdb_test.FileKind)
    : gmap string tsdb_test.FileKind :=
  filter (fun entry => below dir entry.1 = false) fs.

(** The [deferFunc] that [Space] returns with the directory [tempDir]. *)
Definition deferFunc (tempDir : string) (fs : gmap string tsdb_test.FileKind)
    : gmap string tsdb_test.FileKind :=
  RemoveAll tempDir fs.

End test.

(** ** Locators built from a schema *)

(** The offsets [FindTagByName] answers for a name it finds are not
    negative. *)
Definition resolvesNonNegative {TagFamilySpec TagSpec : Type}
    (FindTagByName : list TagFamilySpec -> string -> Z * Z * option TagSpec)
    (families : list TagFamilySpec) (name : string) : Prop :=
  match FindTagByName families name with
  | (fIndex, tIndex, Some _) => 0 <= fIndex /\ 0 <= tIndex
  | (_, _, None) => True
  end.

(** ** Requests the write handler answers *)

(** A request is answered under the series event [ev]: it is a write whose
    schema builds and for which the loop over the composite series id of
    [ev] runs to its end. *)
Definition answered {Metadata Schema WriteEntity : Type}
    (MetaData : WriteEntity -> Metadata)
    (BuildTraceSchema : Metadata -> option Schema * option error)
    (FieldSubscript : Schema -> string -> bool * Z)
    (EntityFields : WriteEntity -> Z -> bool)
    (ev : grpc.SeriesEvent) (request : @grpc.RecvResult WriteEntity) : Prop :=
  match request with
  | grpc.RecvEntity writeEntity =>
      (BuildTraceSchema (MetaData writeEntity)).2 = None /\
      grpc.checkSeriesId FieldSubscript EntityFields
        (BuildTraceSchema (MetaData writeEntity)).1 writeEntity
        (grpc.FieldNamesCompositeSeriesId ev) = Returns true
  | grpc.RecvError _ => False
  end.

(** ** Stream ids *)

(** The name has a [:] in it. *)
Fixpoint hasColon (s : string) : bool :=
  match s with
  | EmptyString => false
  | String a rest => Ascii.eqb a ":"%char || hasColon rest
  end.

(** * Properties *)

(** ** Slices *)

Lemma len_nonneg {A} (s : list A) : 0 <= len s.
Proof. unfold len. lia. Qed.

Lemma index_lookup {A} (s : list A) (i : Z) (x : A) :
  0 <= i -> s !! Z.to_nat i = Some x -> index s i = Returns x.
Proof.
  intros Hi Hx. unfold index.
  pose proof (lookup_lt_Some _ _ _ Hx) as Hlt.
  destruct (i <? 0) eqn:Hneg; [lia|].
  destruct (len s <=? i) eqn:Hge; [unfold len in Hge; lia|].
  simpl. now rewrite Hx.
Qed.

Lemma index_returns {A} (s : list A) (i : Z) (x : A) :
  index s i = Returns x -> 0 <= i < len s /\ s !! Z.to_nat i = Some x.
Proof.
  unfold index.
  destruct (i <? 0) eqn:Hneg; [discriminate|].
  destruct (len s <=? i) eqn:Hge; [discriminate|]. simpl.
  destruct (s !! Z.to_nat i) eqn:Hx; [|discriminate].
  intros [= ->]. split; [lia|reflexivity].
Qed.

Lemma index_in_range {A} (s : list A) (i : Z) :
  0 <= i < len s -> exists x, s !! Z.to_nat i = Some x /\ index s i = Returns x.
Proof.
  intros Hi. destruct (lookup_lt_is_Some_2 s (Z.to_nat i)) as [x Hx].
  - unfold len in Hi. lia.
  - exists x. split; [exact Hx|]. apply index_lookup; [lia|exact Hx].
Qed.

Lemma store_in_range {A} (s : list A) (i : Z) (x : A) :
  0 <= i < len s -> store s i x = Returns (<[Z.to_nat i := x]> s).
Proof.
  intros Hi. unfold store.
  destruct (i <? 0) eqn:Hneg; [lia|].
  destruct (len s <=? i) eqn:Hge; [lia|]. reflexivity.
Qed.

Lemma omap_length_le {A B} (f : A -> option B) (l : list A) :
  (length (omap f l) <= length l)%nat.
Proof.
  induction l as [|a l IH]; csimpl; [lia|].
  destruct (f a); csimpl; lia.
Qed.

Lemma IsMalformedElement_family : IsMalformedElement partition.ErrFamilyOffset = true.
Proof. reflexivity. Qed.

Lemma IsMalformedElement_tag : IsMalformedElement partition.ErrTagOffset = true.
Proof. reflexivity. Qed.

(** ** The entity locator *)

Import partition.

Section OffsetFacts.

Context {TagValue : Type}.

Local Abbreviation Payload := (list (option (modelv1.TagFamilyForWrite TagValue))).

Lemma InRange_spec (value : Payload) (ix : TagLocator) :
  InRange value ix = true <->
  0 <= FamilyOffset ix < len value /\
  0 <= TagOffset ix < len (FamilyTags value (FamilyOffset ix)).
Proof.
  unfold InRange. rewrite !andb_true_iff.
  rewrite !Z.leb_le, !Z.ltb_lt. lia.
Qed.

Lemma GetTagByOffset_in_range (value : Payload) (ix : TagLocator) :
  InRange value ix = true ->
  GetTagByOffset value (FamilyOffset ix) (TagOffset ix) = Returns (TagAt value ix, None).
Proof.
  intros [Hf Ht]%InRange_spec. unfold GetTagByOffset, TagAt.
  destruct (len value <=? FamilyOffset ix) eqn:Hge; [lia|].
  destruct (index_in_range value (FamilyOffset ix) Hf) as (family & Hfam & ->).
  unfold FamilyTags in *. rewrite Hfam in *. simpl.
  destruct (len (modelv1.GetTags family) <=? TagOffset ix) eqn:Hge'; [lia|].
  destruct (index_in_range _ (TagOffset ix) Ht) as (tag & Htag & ->).
  simpl. now rewrite Htag.
Qed.

Lemma GetTagByOffset_out_of_range (value : Payload) (ix : TagLocator) :
  0 <= FamilyOffset ix -> 0 <= TagOffset ix -> InRange value ix = false ->
  GetTagByOffset value (FamilyOffset ix) (TagOffset ix)
  = Returns (None, Some (OffsetError value ix)).
Proof.
  intros Hf Ht Hout. unfold GetTagByOffset, OffsetError.
  destruct (len value <=? FamilyOffset ix) eqn:Hge; [reflexivity|].
  assert (0 <= FamilyOffset ix < len value) as Hf' by lia.
  destruct (index_in_range value (FamilyOffset ix) Hf') as (family & Hfam & ->).
  simpl.
  destruct (len (modelv1.GetTags family) <=? TagOffset ix) eqn:Hge'; [reflexivity|].
  exfalso. apply not_true_iff_false in Hout. apply Hout.
  apply InRange_spec. unfold FamilyTags. rewrite Hfam. lia.
Qed.

Lemma GetTagByOffset_returns_tag (value : Payload) (ix : TagLocator) tag :
  GetTagByOffset value (FamilyOffset ix) (TagOffset ix) = Returns (tag, None) ->
  InRange value ix = true /\ tag = TagAt value ix.
Proof.
  unfold GetTagByOffset. intros H.
  destruct (len value <=? FamilyOffset ix) eqn:Hge; [discriminate|].
  destruct (index value (FamilyOffset ix)) as [family|] eqn:Hfam; [|discriminate].
  simpl in H. apply index_returns in Hfam as [Hf Hfam].
  destruct (len (modelv1.GetTags family) <=? TagOffset ix) eqn:Hge'; [discriminate|].
  destruct (index (modelv1.GetTags family) (TagOffset ix)) as [t|] eqn:Htag; [|discriminate].
  simpl in H. apply index_returns in Htag as [Ht Htag].
  injection H as ->. split.
  - apply InRange_spec. unfold FamilyTags. rewrite Hfam. lia.
  - unfold TagAt, FamilyTags. rewrite Hfam. now rewrite Htag.
Qed.

(** A locator with a pair out of range splits at the first such pair. *)
Lemma first_out_of_range (value : Payload) (e : EntityLocator) :
  Exists (fun ix => InRange value ix = false) e ->
  exists pre ix post,
    e = pre ++ ix :: post /\
    Forall (fun p => InRange value p = true) pre /\ InRange value ix = false.
Proof.
  induction e as [|a e IH]; intros Hex.
  - inversion Hex.
  - destruct (InRange value a) eqn:Ha.
    + destruct IH as (pre & ix & post & -> & Hpre & Hix).
      { inversion Hex; subst; [congruence|assumption]. }
      exists (a :: pre), ix, post. repeat split; [constructor|]; assumption.
    + exists [], a, e. repeat split; [constructor|assumption].
Qed.

(** C10.  [GetTagByOffset] is total and guarded for offsets that are not
    negative: when [fIndex < len(value)] and [tIndex] is below the number of
    tags of family [fIndex] it returns the tag at that position and no
    error, otherwise it returns a MalformedElement error; it never
    panics. *)
Theorem GetTagByOffset_guarded (value : Payload) (fIndex tIndex : Z) :
  0 <= fIndex -> 0 <= tIndex ->
  (fIndex < len value /\ tIndex < len (FamilyTags value fIndex) ->
     exists tag,
       FamilyTags value fIndex !! Z.to_nat tIndex = Some tag /\
       GetTagByOffset value fIndex tIndex = Returns (tag, None)) /\
  (~ (fIndex < len value /\ tIndex < len (FamilyTags value fIndex)) ->
     exists err,
       GetTagByOffset value fIndex tIndex = Returns (None, Some err) /\
       IsMalformedElement err = true) /\
  GetTagByOffset value fIndex tIndex <> Panics.
Proof.
  intros Hf Ht.
  set (ix := {| FamilyOffset := fIndex; TagOffset := tIndex |}).
  change (GetTagByOffset value fIndex tIndex)
    with (GetTagByOffset value (FamilyOffset ix) (TagOffset ix)).
  pose proof (InRange_spec value ix) as Hspec. simpl in Hspec.
  destruct (InRange value ix) eqn:Hin.
  - assert (0 <= tIndex < len (FamilyTags value fIndex)) as Ht' by (apply Hspec; reflexivity).
    destruct (index_in_range _ _ Ht') as (tag & Htag & _).
    rewrite (GetTagByOffset_in_range value ix Hin).
    unfold TagAt. simpl. rewrite Htag.
    repeat split; [|tauto|discriminate].
    intros _. exists tag. split; reflexivity.
  - rewrite (GetTagByOffset_out_of_range value ix Hf Ht Hin).
    repeat split; [|intros _|discriminate].
    + intros [H1 H2]. assert (false = true) by (apply Hspec; lia). discriminate.
    + eexists. split; [reflexivity|].
      unfold OffsetError. now destruct (len value <=? FamilyOffset ix).
Qed.

End OffsetFacts.

Section ResolveFacts.

Context {TagFamilySpec TagSpec : Type}.
Variable FindTagByName : list TagFamilySpec -> string -> Z * Z * option TagSpec.

Lemma NewEntityLocator_fold (families : list TagFamilySpec) (names : list string) :
  forall acc,
    fold_left
      (fun locator tagInEntity =>
         let '(fIndex, tIndex, tag) := FindTagByName families tagInEntity in
         match tag with
         | Some _ => locator ++ [{| FamilyOffset := fIndex; TagOffset := tIndex |}]
         | None => locator
         end) names acc
    = acc ++ omap (resolve FindTagByName families) names.
Proof.
  induction names as [|tagName names IH]; intros acc; simpl.
  - now rewrite app_nil_r.
  - rewrite IH. unfold resolve at 2.
    destruct (FindTagByName families tagName) as [[fIndex tIndex] [tag|]].
    + now rewrite <- app_assoc.
    + reflexivity.
Qed.

(** C5.  [NewEntityLocator] always returns a locator: the declared entity
    tag names that resolve to a (family index, tag index) pair contribute
    one pair each, in the declared order, and the names that do not resolve
    contribute nothing. *)
Theorem NewEntityLocator_resolved (families : list TagFamilySpec)
    (entity : option databasev1.Entity) :
  NewEntityLocator FindTagByName families entity
  = omap (resolve FindTagByName families) (databasev1.GetTagNames entity)
  /\ len (NewEntityLocator FindTagByName families entity)
     <= len (databasev1.GetTagNames entity).
Proof.
  assert (NewEntityLocator FindTagByName families entity
          = omap (resolve FindTagByName families) (databasev1.GetTagNames entity)) as Heq
    by (unfold NewEntityLocator; now rewrite NewEntityLocator_fold).
  split; [exact Heq|]. rewrite Heq. unfold len.
  pose proof (omap_length_le (resolve FindTagByName families)
                (databasev1.GetTagNames entity)). lia.
Qed.

End ResolveFacts.

Section FindFacts.

Context {TagValue : Type}.
Variable MarshalIndexFieldValue : option TagValue -> tsdb.Entry * option error.

Local Abbreviation Payload := (list (option (modelv1.TagFamilyForWrite TagValue))).
Local Abbreviation Find := (partition.Find MarshalIndexFieldValue).
Local Abbreviation Find_loop := (partition.Find_loop MarshalIndexFieldValue).
Local Abbreviation Marshals := (partition.Marshals MarshalIndexFieldValue).
Local Abbreviation entryOf := (partition.entryOf MarshalIndexFieldValue).

Lemma Find_loop_error_nil (value : Payload) (e : EntityLocator) :
  forall i entity r err,
    Find_loop value i e entity = Returns (r, Some err) -> r = None.
Proof.
  induction e as [|ix rest IH]; intros i entity r err H; simpl in H.
  - discriminate.
  - destruct (GetTagByOffset value (FamilyOffset ix) (TagOffset ix))
      as [[tag [err0|]]|]; run_outcome H; [congruence| |discriminate].
    destruct (MarshalIndexFieldValue tag) as [entry [errMarshal|]]; [congruence|].
    destruct (store entity i entry) as [entity'|]; run_outcome H; [|discriminate].
    eapply IH, H.
Qed.

Lemma Find_loop_success (value : Payload) (e : EntityLocator) :
  forall (n : nat) entity r,
    Find_loop value (Z.of_nat n) e entity = Returns (r, None) ->
    Forall (fun ix => InRange value ix = true) e /\
    Forall (Marshals value) e /\
    r = Some (take n entity ++ map (entryOf value) e ++ drop (n + length e) entity).
Proof.
  induction e as [|ix rest IH]; intros n entity r H; simpl in H.
  - injection H as <-. repeat split; try constructor.
    simpl. now rewrite Nat.add_0_r, take_drop.
  - destruct (GetTagByOffset value (FamilyOffset ix) (TagOffset ix))
      as [[tag [err0|]]|] eqn:Hget; run_outcome H; [discriminate| |discriminate].
    apply GetTagByOffset_returns_tag in Hget as [Hin ->].
    destruct (MarshalIndexFieldValue (TagAt value ix)) as [entry [errMarshal|]] eqn:Hm;
      [discriminate|].
    unfold store in H.
    destruct ((Z.of_nat n <? 0) || (len entity <=? Z.of_nat n)) eqn:Hb;
      run_outcome H; [discriminate|].
    apply orb_false_iff in Hb as [_ Hlt]. unfold len in Hlt.
    assert (n < length entity)%nat as Hn by lia.
    rewrite Nat2Z.id in H.
    replace (Z.of_nat n + 1) with (Z.of_nat (S n)) in H by lia.
    apply IH in H as (Hrange & Hmar & ->).
    split; [constructor; assumption|].
    split; [constructor; [unfold partition.Marshals; now rewrite Hm|assumption]|].
    f_equal.
    assert (<[n:=entry]> entity !! n = Some entry) as Hset
      by (apply list_lookup_insert_eq; exact Hn).
    rewrite (take_S_r _ n entry Hset).
    rewrite take_insert_ge by lia.
    rewrite drop_insert_lt by lia.
    simpl. unfold entryOf at 2. rewrite Hm. simpl.
    rewrite <- app_assoc. simpl.
    now rewrite Nat.add_succ_r.
Qed.

Lemma Find_loop_first_out_of_range (value : Payload) (ix : TagLocator)
    (post : EntityLocator) (pre : EntityLocator) :
  forall (n : nat) entity,
    Forall (fun p => InRange value p = true) pre ->
    0 <= FamilyOffset ix -> 0 <= TagOffset ix -> InRange value ix = false ->
    (n + length pre <= length entity)%nat ->
    exists err,
      Find_loop value (Z.of_nat n) (pre ++ ix :: post) entity = Returns (None, Some err) /\
      (err = OffsetError value ix \/
       exists p, p ∈ pre /\ (MarshalIndexFieldValue (TagAt value p)).2 = Some err).
Proof.
  induction pre as [|p pre IH]; intros n entity Hpre Hf Ht Hout Hlen; simpl.
  - rewrite GetTagByOffset_out_of_range by assumption. simpl.
    eexists. split; [reflexivity|]. now left.
  - apply Forall_cons in Hpre as [Hp Hpre].
    rewrite GetTagByOffset_in_range by assumption. cbn [mbind Outcome_bind].
    destruct (MarshalIndexFieldValue (TagAt value p)) as [entry [errMarshal|]] eqn:Hm.
    + exists errMarshal. split; [reflexivity|]. right. exists p.
      split; [constructor|]. now rewrite Hm.
    + simpl in Hlen. rewrite store_in_range by (unfold len; lia).
      cbn [mbind Outcome_bind]. rewrite Nat2Z.id.
      replace (Z.of_nat n + 1) with (Z.of_nat (S n)) by lia.
      destruct (IH (S n) (<[n:=entry]> entity)) as (err & Hrun & Herr);
        try assumption.
      { rewrite length_insert. lia. }
      exists err. split; [exact Hrun|].
      destruct Herr as [->|(q & Hq & Hqm)]; [now left|].
      right. exists q. split; [now constructor|exact Hqm].
Qed.

Lemma Find_success (e : EntityLocator) (value : Payload) r :
  Find e value = Returns (r, None) ->
  Forall (fun ix => InRange value ix = true) e /\
  Forall (Marshals value) e /\
  r = Some (map (entryOf value) e).
Proof.
  unfold partition.Find. intros H.
  apply (Find_loop_success value e 0) in H as (Hr & Hm & ->).
  repeat split; try assumption. f_equal. simpl.
  rewrite drop_ge by now rewrite length_replicate.
  apply app_nil_r.
Qed.

End FindFacts.

Section LocateFacts.

Context {TagValue : Type}.
Variable MarshalIndexFieldValue : option TagValue -> tsdb.Entry * option error.
Variable Hash : list byte -> Z.

Local Abbreviation Payload := (list (option (modelv1.TagFamilyForWrite TagValue))).
Local Abbreviation Find := (partition.Find MarshalIndexFieldValue).
Local Abbreviation Locate := (partition.Locate MarshalIndexFieldValue Hash).
Local Abbreviation entryOf := (partition.entryOf MarshalIndexFieldValue).

(** C1.  For every entity locator, every payload on which [Find] succeeds
    and every shard count [shardNum >= 1] (a uint32), [Locate] returns the
    entity of [Find] together with the shard id
    [hash(concat(entityBytes)) mod shardNum], and that id lies in
    [[0, shardNum)]. *)
Theorem Locate_shard_id (e : EntityLocator) (value : Payload) (shardNum : Z)
    (entity : option tsdb.Entity) :
  Find e value = Returns (entity, None) ->
  1 <= shardNum < 2 ^ 32 ->
  exists entries id,
    entity = Some entries /\
    id = (Hash (concat entries) mod 2 ^ 64) mod shardNum /\
    Locate e value shardNum = Returns (Some entries, id, None) /\
    0 <= id < shardNum.
Proof.
  intros Hfind Hnum.
  destruct (Find_success MarshalIndexFieldValue _ _ _ Hfind) as (_ & _ & ->).
  set (entries := map (entryOf value) e) in *.
  exists entries, ((Hash (concat entries) mod 2 ^ 64) mod shardNum).
  assert (0 <= (Hash (concat entries) mod 2 ^ 64) mod shardNum < shardNum) as Hid
    by (apply Z.mod_pos_bound; lia).
  repeat split; try lia.
  unfold partition.Locate. rewrite Hfind. cbn [mbind Outcome_bind].
  unfold ShardID. destruct (shardNum <? 1) eqn:Hlt; [lia|].
  unfold tsdb.Marshal, common.ShardID.
  rewrite (Z.mod_small _ (2 ^ 32)) by lia. reflexivity.
Qed.

(** C9.  [Locate] propagates an error of [Find] unchanged, and on an error
    no entity is returned: [Find] returns the nil entity with its error,
    never one that is filled in part, and whenever [Locate] returns an
    error the entity is nil and the shard id is 0. *)
Theorem Locate_propagates_error (e : EntityLocator) (value : Payload)
    (shardNum : Z) (r r' : option tsdb.Entity) (id : Z) (err err' : error) :
  (Find e value = Returns (r, Some err) ->
     r = None /\ Locate e value shardNum = Returns (None, 0, Some err)) /\
  (Locate e value shardNum = Returns (r', id, Some err') ->
     r' = None /\ id = 0).
Proof.
  split.
  - intros Hfind. split.
    + unfold partition.Find in Hfind. eapply Find_loop_error_nil, Hfind.
    + unfold partition.Locate. now rewrite Hfind.
  - unfold partition.Locate.
    destruct (Find e value) as [[entity [errFind|]]|]; cbn [mbind Outcome_bind].
    + intros [= <- <- _]. split; reflexivity.
    + destruct (ShardID Hash (tsdb.Marshal entity) shardNum) as [id0 [errShard|]].
      * intros [= <- <- _]. split; reflexivity.
      * discriminate.
    + discriminate.
Qed.

End LocateFacts.

(** *** The locator on the write of the scenario *)

Example scenario_locator :
  scenario.locator
  = [{| partition.FamilyOffset := 0; partition.TagOffset := 0 |};
     {| partition.FamilyOffset := 0; partition.TagOffset := 2 |}].
Proof. reflexivity. Qed.

Example scenario_Find :
  partition.Find pbv1.MarshalIndexFieldValue scenario.locator scenario.payload
  = Returns (Some [scenario.svcA; scenario.i1], None).
Proof. reflexivity. Qed.

Example scenario_unresolved_name :
  partition.NewEntityLocator pbv1.FindTagByName scenario.families
    (Some {| databasev1.TagNames := ["service"; "zone"; "instance"] |})
  = scenario.locator.
Proof. reflexivity. Qed.

Lemma Locate_shard_id_witness :
  exists entries id,
    Some [scenario.svcA; scenario.i1] = Some entries /\
    id = (convert.Hash (concat entries) mod 2 ^ 64) mod 4 /\
    partition.Locate pbv1.MarshalIndexFieldValue convert.Hash
      scenario.locator scenario.payload 4 = Returns (Some entries, id, None) /\
    0 <= id < 4.
Proof.
  apply (Locate_shard_id pbv1.MarshalIndexFieldValue convert.Hash
           scenario.locator scenario.payload 4 (Some [scenario.svcA; scenario.i1])).
  - vm_compute. reflexivity.
  - split; [lia|reflexivity].
Defined.

(** C4, as stated, fails.  A pair with a negative family offset is out of
    range for every payload, and [Find] panics on it.  And when the tag of
    an earlier pair does not marshal, [Find] returns that error, which is
    not a MalformedElement error, although the second pair names a family
    the payload does not have. *)
Lemma Find_out_of_range_counterexample :
  partition.Find pbv1.MarshalIndexFieldValue
    [{| partition.FamilyOffset := -1; partition.TagOffset := 0 |}] scenario.payload
  = Panics
  /\ exists err,
       partition.Find pbv1.MarshalIndexFieldValue
         [{| partition.FamilyOffset := 0; partition.TagOffset := 0 |};
          {| partition.FamilyOffset := 1; partition.TagOffset := 0 |}]
         scenario.payloadNilTag
       = Returns (None, Some err)
       /\ IsMalformedElement err = false.
Proof.
  split; [reflexivity|].
  eexists. split; reflexivity.
Qed.

Lemma Locate_propagates_error_witness :
  (@None tsdb.Entity = None /\
   partition.Locate pbv1.MarshalIndexFieldValue convert.Hash
     [{| partition.FamilyOffset := 0; partition.TagOffset := 0 |}] [] 4
   = Returns (None, 0, Some partition.ErrFamilyOffset)) /\
  (@None tsdb.Entity = None /\ 0 = 0).
Proof.
  destruct (Locate_propagates_error pbv1.MarshalIndexFieldValue convert.Hash
              [{| partition.FamilyOffset := 0; partition.TagOffset := 0 |}] [] 4
              None None 0 partition.ErrFamilyOffset partition.ErrFamilyOffset)
    as [Hfind Hlocate].
  split; [apply Hfind|apply Hlocate]; reflexivity.
Defined.

Lemma GetTagByOffset_guarded_witness :
  (0 < len scenario.payload /\ 2 < len (partition.FamilyTags scenario.payload 0) ->
     exists tag,
       partition.FamilyTags scenario.payload 0 !! Z.to_nat 2 = Some tag /\
       partition.GetTagByOffset scenario.payload 0 2 = Returns (tag, None)) /\
  (~ (0 < len scenario.payload /\ 2 < len (partition.FamilyTags scenario.payload 0)) ->
     exists err,
       partition.GetTagByOffset scenario.payload 0 2 = Returns (None, Some err) /\
       IsMalformedElement err = true) /\
  partition.GetTagByOffset scenario.payload 0 2 <> Panics.
Proof.
  apply (GetTagByOffset_guarded scenario.payload 0 2); lia.
Defined.

(** ** The plain codec *)

Lemma Z_of_byte_of_Z (z : Z) : Z_of_byte (byte_of_Z z) = z mod 256.
Proof.
  unfold Z_of_byte, byte_of_Z.
  pose proof (Z.mod_pos_bound z 256 ltac:(lia)) as Hz.
  destruct (Byte.of_N (Z.to_N (z mod 256))) as [b|] eqn:Hb.
  - apply Byte.to_of_N in Hb. rewrite Hb. apply Z2N.id. lia.
  - apply Byte.of_N_None_iff in Hb. lia.
Qed.

Lemma putUvarintFuel_not_nil (fuel : nat) (n : Z) (rest : list byte) :
  encoding.putUvarintFuel fuel n ++ rest <> [].
Proof.
  destruct fuel; simpl; [discriminate|].
  destruct (n <? 128); discriminate.
Qed.

Lemma getUvarint_putUvarintFuel (rest : list byte) (fuel : nat) :
  forall n shift acc,
    0 <= n < 128 * 128 ^ Z.of_nat fuel -> 0 <= shift ->
    encoding.getUvarint (encoding.putUvarintFuel fuel n ++ rest) shift acc
    = Some (acc + n * 2 ^ shift, rest).
Proof.
  induction fuel as [|fuel IH]; intros n shift acc Hn Hshift.
  - change (128 ^ Z.of_nat 0) with 1 in Hn. cbn [encoding.putUvarintFuel app encoding.getUvarint].
    rewrite Z_of_byte_of_Z, (Z.mod_small n 256) by lia.
    destruct (n <? 128) eqn:Hlt; [reflexivity|lia].
  - cbn [encoding.putUvarintFuel].
    destruct (n <? 128) eqn:Hlt; cbn [app encoding.getUvarint].
    + rewrite Z_of_byte_of_Z, (Z.mod_small n 256) by lia. now rewrite Hlt.
    + pose proof (Z.mod_pos_bound n 128 ltac:(lia)) as Hmod.
      rewrite Z_of_byte_of_Z, (Z.mod_small (128 + n mod 128) 256) by lia.
      destruct (128 + n mod 128 <? 128) eqn:Hhigh; [lia|].
      rewrite IH; [|rewrite Nat2Z.inj_succ, Z.pow_succ_r in Hn by lia;
                    split; [apply Z.div_pos; lia|apply Z.div_lt_upper_bound; lia]
                  |lia].
      f_equal. f_equal.
      rewrite Z.pow_add_r by lia. change (2 ^ 7) with 128.
      pose proof (Z.div_mod n 128 ltac:(lia)) as Hdiv.
      replace (128 + n mod 128 - 128) with (n mod 128) by lia.
      rewrite Hdiv at 3. ring.
Qed.

Lemma getUvarint_putUvarint (n : Z) (rest : list byte) :
  0 <= n -> encoding.getUvarint (encoding.putUvarint n ++ rest) 0 0 = Some (n, rest).
Proof.
  intros Hn. unfold encoding.putUvarint.
  rewrite getUvarint_putUvarintFuel; [f_equal; f_equal; lia| |lia].
  split; [exact Hn|].
  destruct (Z.eq_dec n 0) as [->|Hpos]; [reflexivity|].
  rewrite Z2Nat.id by apply Z.log2_nonneg.
  pose proof (Z.log2_spec n ltac:(lia)) as [_ Hlog].
  pose proof (Z.log2_nonneg n) as Hnonneg.
  eapply Z.lt_le_trans; [exact Hlog|].
  change 128 with (2 ^ 7). rewrite <- Z.pow_mul_r, <- Z.pow_add_r by lia.
  apply Z.pow_le_mono_r; lia.
Qed.

Lemma readFrame_frame (value rest : list byte) :
  encoding.readFrame (encoding.frame value ++ rest) = Some (value, rest).
Proof.
  unfold encoding.frame, encoding.readFrame.
  rewrite <- app_assoc, getUvarint_putUvarint by apply len_nonneg.
  unfold len. rewrite Nat2Z.id.
  rewrite take_app_length, drop_app_length.
  destruct (length value <=? length (value ++ rest))%nat eqn:Hle; [reflexivity|].
  apply Nat.leb_gt in Hle. rewrite length_app in Hle. lia.
Qed.

Lemma frame_not_nil (value rest : list byte) : encoding.frame value ++ rest <> [].
Proof.
  unfold encoding.frame, encoding.putUvarint. rewrite <- app_assoc.
  apply putUvarintFuel_not_nil.
Qed.

(** The run of a list of values: their frames, one after the other. *)
Lemma buff_Append_all (values : list encoding.Value) :
  forall enc,
    encoding.buff (fold_left encoding.Append values enc)
    = encoding.buff enc ++ concat (map encoding.frame values).
Proof.
  induction values as [|value values IH]; intros enc; simpl.
  - now rewrite app_nil_r.
  - rewrite IH. simpl. now rewrite <- app_assoc.
Qed.

Lemma decodeFrames_step (fuel : nat) (data : list byte) :
  data <> [] ->
  encoding.decodeFrames (S fuel) data
  = match encoding.readFrame data with
    | Some (value, rest) =>
        match encoding.decodeFrames fuel rest with
        | Some values => Some (value :: values)
        | None => None
        end
    | None => None
    end.
Proof. destruct data; [congruence|reflexivity]. Qed.

Lemma decodeFrames_frames (values : list encoding.Value) :
  forall fuel, (length values < fuel)%nat ->
    encoding.decodeFrames fuel (concat (map encoding.frame values)) = Some values.
Proof.
  induction values as [|value values IH]; intros fuel Hfuel.
  - destruct fuel; [lia|reflexivity].
  - destruct fuel as [|fuel]; [lia|]. cbn [map concat length] in Hfuel |- *.
    rewrite decodeFrames_step by apply frame_not_nil.
    rewrite readFrame_frame.
    now rewrite IH by lia.
Qed.

Lemma length_frames (values : list encoding.Value) :
  (length values <= length (concat (map encoding.frame values)))%nat.
Proof.
  induction values as [|value values IH]; cbn [map concat length]; [lia|].
  assert (1 <= length (encoding.frame value))%nat as Hframe.
  { pose proof (frame_not_nil value []) as Hnil. rewrite app_nil_r in Hnil.
    destruct (encoding.frame value); [congruence|simpl; lia]. }
  rewrite length_app. lia.
Qed.

Lemma Decode_Encode (size : Z) (values : list encoding.Value) :
  encoding.Decode
    (encoding.Encode (fold_left encoding.Append values (encoding.NewPlainEncoder size)))
  = (Some values, None).
Proof.
  unfold encoding.Decode, encoding.Encode.
  rewrite buff_Append_all. cbn [encoding.NewPlainEncoder encoding.buff app].
  rewrite decodeFrames_frames; [reflexivity|].
  pose proof (length_frames values). lia.
Qed.

(** C3.  Codec round trip, for the plain codec of the encoding pools: for
    every chunk size, and for the pools [openStream] hands to the database,
    decoding the run that an encoder returns for a sequence of column
    values gives back these values, in their order, and no error. *)
Theorem plain_codec_round_trip (size size' : Z) (values : list encoding.Value) :
  encoding.NewPlainDecoderPool size' ()
    (encoding.Encode (fold_left encoding.Append values (encoding.NewPlainEncoderPool size ())))
  = (Some values, None)
  /\ encoding.DecoderPool stream.openStream_EncodingMethod ()
       (encoding.Encode
          (fold_left encoding.Append values
             (encoding.EncoderPool stream.openStream_EncodingMethod ())))
     = (Some values, None).
Proof.
  split; apply Decode_Encode.
Qed.

Example plain_codec_scenario :
  encoding.Decode
    (encoding.Encode
       (fold_left encoding.Append [scenario.svcA; []; scenario.i1]
          (encoding.NewPlainEncoder 0)))
  = (Some [scenario.svcA; []; scenario.i1], None).
Proof. reflexivity. Qed.

Example putUvarint_300 : encoding.putUvarint 300 = [xac; x02].
Proof. reflexivity. Qed.

Example plain_codec_truncated :
  encoding.Decode (removelast (encoding.frame scenario.svcA))
  = (None, Some encoding.ErrCorruptData).
Proof. reflexivity. Qed.

(** ** Closing a stream *)





Lemma stream_Close_result_writer {Writer : Type}
    (indexWriter_Close : Writer -> Writer * option error) (s : stream.stream Writer) :
  stream.indexWriter (stream.Close indexWriter_Close s).1
  = (indexWriter_Close (stream.indexWriter s)).1 /\
  (stream.Close indexWriter_Close s).2 = (tsdb.Close (stream.db s)).2.
Proof.
  unfold stream.Close.
  destruct (indexWriter_Close (stream.indexWriter s)) as [w errWriter].
  now destruct (tsdb.Close (stream.db s)) as [d err].
Qed.

Section CloseFacts.

Context {Writer : Type}.
Variable indexWriter_Close : Writer -> Writer * option error.


End CloseFacts.

(** With the index writer of package index: when its close does not fail,
    [Close] on the stream leaves it released. *)
Lemma stream_Close_releases (s : stream.stream index.Writer) :
  index.writerCloseError (stream.indexWriter s) = None ->
  index.released (stream.indexWriter (stream.Close index.Close s).1) = true.
Proof.
  intros Hok. destruct (stream_Close_result_writer index.Close s) as [-> _].
  unfold index.Close. now rewrite Hok.
Qed.


Example stream_Close_flushes :
  tsdb.sLst (stream.db (stream.Close index.Close scenario.streamFailingWriter).1)
  = [{| tsdb.ID := 0;
        tsdb.blocks := [{| tsdb.blockOpen := false; tsdb.buffered := [];
                           tsdb.durable := [scenario.i1; scenario.svcA; scenario.i1] |};
                        {| tsdb.blockOpen := false; tsdb.buffered := [];
                           tsdb.durable := [scenario.svcA] |}];
        tsdb.seriesClosed := true;
        tsdb.shardCloseError := None |}].
Proof. reflexivity. Qed.

Example stream_Close_aggregates :
  (stream.Close index.Close
     {| stream.name := "sw"; stream.group := "default";
        stream.db :=
          {| tsdb.sLst :=
               [{| tsdb.ID := 0; tsdb.blocks := []; tsdb.seriesClosed := false;
                   tsdb.shardCloseError := Some (ErrForeign "flush 0") |};
                scenario.shard0;
                {| tsdb.ID := 2; tsdb.blocks := []; tsdb.seriesClosed := false;
                   tsdb.shardCloseError := Some (ErrForeign "flush 2") |}] |};
        stream.indexWriter :=
          {| index.released := false; index.writerCloseError := None |} |}).2
  = Some (ErrAggregate [ErrForeign "flush 0"; ErrForeign "flush 2"]).
Proof. reflexivity. Qed.

(** ** The write handler of the liaison *)

Lemma Rev_fold (messages : list grpc.MessageData) :
  forall seriesEventData,
    fold_left grpc.Rev messages seriesEventData
    = match grpc.lastSeriesEvent messages with
      | Some ev => Some ev
      | None => seriesEventData
      end.
Proof.
  induction messages as [|m messages IH]; intros seriesEventData; simpl.
  - reflexivity.
  - rewrite IH. destruct (grpc.lastSeriesEvent messages); [reflexivity|].
    now destruct m.
Qed.

Lemma delivered_last (messages : list grpc.MessageData) :
  grpc.delivered messages = grpc.lastSeriesEvent messages.
Proof.
  unfold grpc.delivered. rewrite Rev_fold.
  now destruct (grpc.lastSeriesEvent messages).
Qed.

Section WriteFacts.

Context {Metadata Schema WriteEntity : Type}.
Variable MetaData : WriteEntity -> Metadata.
Variable BuildTraceSchema : Metadata -> option Schema * option error.
Variable FieldSubscript : Schema -> string -> bool * Z.
Variable EntityFields : WriteEntity -> Z -> bool.
Variable Send : nat -> option error.

Local Abbreviation Write :=
  (grpc.Write MetaData BuildTraceSchema FieldSubscript EntityFields Send).
Local Abbreviation Write_loop :=
  (grpc.Write_loop MetaData BuildTraceSchema FieldSubscript EntityFields Send).
Local Abbreviation WriteRun :=
  (grpc.WriteRun MetaData BuildTraceSchema FieldSubscript EntityFields Send).
Local Abbreviation WriteRun_loop :=
  (grpc.WriteRun_loop MetaData BuildTraceSchema FieldSubscript EntityFields Send).
Local Abbreviation Step := (@grpc.Step WriteEntity).

Lemma WriteRun_loop_deliveries (messages : list grpc.MessageData) (rest : list Step) :
  forall seriesEventData sent,
    WriteRun_loop seriesEventData (map grpc.Deliver messages ++ rest) sent
    = WriteRun_loop (fold_left grpc.Rev messages seriesEventData) rest sent.
Proof.
  induction messages as [|m messages IH]; intros seriesEventData sent; simpl;
    [reflexivity|apply IH].
Qed.

Lemma WriteRun_loop_no_delivery (seriesEventData : option grpc.SeriesEvent)
    (requests : list (@grpc.RecvResult WriteEntity)) :
  forall sent,
    WriteRun_loop seriesEventData (map grpc.Recv requests) sent
    = Write_loop seriesEventData requests sent.
Proof.
  induction requests as [|request requests IH]; intros sent; simpl; [reflexivity|].
  destruct request as [writeEntity|err]; [|reflexivity].
  destruct (BuildTraceSchema (MetaData writeEntity)) as [schema [ruleError|]];
    [reflexivity|].
  destruct seriesEventData as [ev|]; [|reflexivity].
  destruct (grpc.checkSeriesId FieldSubscript EntityFields schema writeEntity
              (grpc.FieldNamesCompositeSeriesId ev)) as [[|]|];
    cbn [mbind Outcome_bind]; try reflexivity.
  destruct (Send sent); [reflexivity|apply IH].
Qed.

(** A call of the handler during which nothing is delivered is a run whose
    deliveries all come before the first answer of [Recv]. *)
Lemma WriteRun_call (messages : list grpc.MessageData)
    (requests : list (@grpc.RecvResult WriteEntity)) :
  WriteRun (map grpc.Deliver messages ++ map grpc.Recv requests)
  = Write (grpc.delivered messages) requests.
Proof.
  unfold grpc.WriteRun, grpc.Write, grpc.delivered.
  rewrite WriteRun_loop_deliveries. apply WriteRun_loop_no_delivery.
Qed.




End WriteFacts.



(** The series event last delivered in the whole run does not decide: with
    the same request and the same last series event, the request gets a
    response when that event comes after its turn, and none when it comes
    before. *)
Example WriteRun_event_at_the_turn :
  let late := [grpc.Deliver (grpc.DataBytes scenario.eventNoId);
               grpc.Recv (grpc.RecvEntity (["service"], @None Z));
               grpc.Deliver (grpc.DataBytes scenario.eventService)] in
  let early := [grpc.Deliver (grpc.DataBytes scenario.eventService);
                grpc.Recv (grpc.RecvEntity (["service"], @None Z))] in
  grpc.received late = grpc.received early
  /\ grpc.lastSeriesEvent (grpc.deliveries late) = grpc.lastSeriesEvent (grpc.deliveries early)
  /\ scenario.WriteRun late = Returns (1%nat, None)
  /\ scenario.WriteRun early = Returns (0%nat, None).
Proof. repeat split; reflexivity. Qed.

Example Write_before_any_event :
  scenario.Write (grpc.delivered []) scenario.requests = Panics.
Proof. reflexivity. Qed.

(** * Further properties of the code *)

(** ** The entity locator: when [Find] succeeds, and what it never does *)

Section FindMore.

Context {TagValue : Type}.
Variable MarshalIndexFieldValue : option TagValue -> tsdb.Entry * option error.

Local Abbreviation Payload := (list (option (modelv1.TagFamilyForWrite TagValue))).
Local Abbreviation Find := (partition.Find MarshalIndexFieldValue).
Local Abbreviation Find_loop := (partition.Find_loop MarshalIndexFieldValue).
Local Abbreviation Marshals := (partition.Marshals MarshalIndexFieldValue).
Local Abbreviation entryOf := (partition.entryOf MarshalIndexFieldValue).

Lemma Find_loop_all_ok (value : Payload) (e : EntityLocator) :
  forall (n : nat) entity,
    Forall (fun ix => InRange value ix = true) e ->
    Forall (Marshals value) e ->
    (n + length e <= length entity)%nat ->
    Find_loop value (Z.of_nat n) e entity
    = Returns (Some (take n entity ++ map (entryOf value) e
                     ++ drop (n + length e) entity), None).
Proof.
  induction e as [|ix rest IH]; intros n entity Hrange Hmar Hlen.
  - simpl. now rewrite Nat.add_0_r, take_drop.
  - apply Forall_cons in Hrange as [Hix Hrange].
    apply Forall_cons in Hmar as [Hm Hmar].
    cbn [partition.Find_loop length] in *.
    rewrite GetTagByOffset_in_range by assumption. cbn [mbind Outcome_bind].
    unfold partition.Marshals in Hm.
    destruct (MarshalIndexFieldValue (TagAt value ix)) as [entry errMarshal] eqn:Hentry.
    simpl in Hm. subst errMarshal.
    rewrite store_in_range by (unfold len; lia). cbn [mbind Outcome_bind].
    rewrite Nat2Z.id.
    replace (Z.of_nat n + 1) with (Z.of_nat (S n)) by lia.
    rewrite IH; [|assumption|assumption|rewrite length_insert; lia].
    do 2 f_equal.
    assert (<[n:=entry]> entity !! n = Some entry) as Hset
      by (apply list_lookup_insert_eq; lia).
    rewrite (take_S_r _ n entry Hset).
    rewrite take_insert_ge by lia.
    rewrite drop_insert_lt by lia.
    cbn [map]. unfold partition.entryOf at 2. rewrite Hentry. simpl.
    rewrite <- app_assoc. simpl. now rewrite Nat.add_succ_r.
Qed.

Lemma Find_all_ok (e : EntityLocator) (value : Payload) :
  Forall (fun ix => InRange value ix = true) e ->
  Forall (Marshals value) e ->
  Find e value = Returns (Some (map (entryOf value) e), None).
Proof.
  intros Hrange Hmar. unfold partition.Find.
  rewrite (Find_loop_all_ok value e 0) by
    (try assumption; rewrite length_replicate; simpl; lia).
  simpl. rewrite drop_ge by now rewrite length_replicate.
  now rewrite app_nil_r.
Qed.

(** X1.  [Find] returns without an error exactly when every pair of the
    locator is in range for the payload and the tag it addresses
    marshals. *)
Theorem Find_succeeds_iff (e : EntityLocator) (value : Payload) :
  (exists r, Find e value = Returns (r, None)) <->
  Forall (fun ix => InRange value ix = true) e /\ Forall (Marshals value) e.
Proof.
  split.
  - intros [r Hfind].
    destruct (Find_success MarshalIndexFieldValue e value r Hfind) as (Hr & Hm & _).
    now split.
  - intros [Hrange Hmar]. eexists. now apply Find_all_ok.
Qed.

(** X2.  When [Find] returns without an error, the entity is not nil, has
    one entry for each pair of the locator, and its entry number [i] is the
    marshalled tag that pair number [i] addresses: the entries come in the
    order of the locator, whatever the order of the tags in the payload. *)
Theorem Find_entries (e : EntityLocator) (value : Payload) (r : option tsdb.Entity) :
  Find e value = Returns (r, None) ->
  exists entries,
    r = Some entries /\
    len entries = len e /\
    forall (i : nat) ix,
      e !! i = Some ix ->
      entries !! i = Some (MarshalIndexFieldValue (TagAt value ix)).1.
Proof.
  intros Hfind.
  destruct (Find_success MarshalIndexFieldValue e value r Hfind) as (_ & _ & ->).
  exists (map (entryOf value) e). split; [reflexivity|]. split.
  - unfold len. now rewrite length_map.
  - intros i ix Hix. rewrite list_lookup_fmap. now rewrite Hix.
Qed.

Lemma Find_loop_returns (value : Payload) (e : EntityLocator) :
  forall (n : nat) entity,
    Forall (fun ix => 0 <= FamilyOffset ix /\ 0 <= TagOffset ix) e ->
    (n + length e <= length entity)%nat ->
    Find_loop value (Z.of_nat n) e entity <> Panics.
Proof.
  induction e as [|ix rest IH]; intros n entity Hnonneg Hlen.
  - discriminate.
  - apply Forall_cons in Hnonneg as [[Hf Ht] Hnonneg].
    cbn [partition.Find_loop length] in *.
    destruct (InRange value ix) eqn:Hin.
    + rewrite GetTagByOffset_in_range by assumption. cbn [mbind Outcome_bind].
      destruct (MarshalIndexFieldValue (TagAt value ix)) as [entry [errMarshal|]];
        [discriminate|].
      rewrite store_in_range by (unfold len; lia). cbn [mbind Outcome_bind].
      rewrite Nat2Z.id.
      replace (Z.of_nat n + 1) with (Z.of_nat (S n)) by lia.
      apply IH; [assumption|rewrite length_insert; lia].
    + rewrite GetTagByOffset_out_of_range by assumption. discriminate.
Qed.

(** X3.  [Find] never panics on a locator whose offsets are not negative:
    for every payload, also an empty one or one with nil families, it
    returns, with an entity or with an error. *)
Theorem Find_never_panics (e : EntityLocator) (value : Payload) :
  Forall (fun ix => 0 <= FamilyOffset ix /\ 0 <= TagOffset ix) e ->
  Find e value <> Panics.
Proof.
  intros Hnonneg. unfold partition.Find.
  apply (Find_loop_returns value e 0); [assumption|].
  rewrite length_replicate. simpl. lia.
Qed.

(** X5.  A payload with more tag families at its end gives the same entity:
    when [Find] succeeds on a payload, it succeeds with the same entity on
    that payload followed by any further families. *)
Theorem Find_payload_extension (e : EntityLocator) (value extra : Payload)
    (r : option tsdb.Entity) :
  Find e value = Returns (r, None) ->
  Find e (value ++ extra) = Returns (r, None).
Proof.
  intros Hfind.
  destruct (Find_success MarshalIndexFieldValue e value r Hfind) as (Hrange & Hmar & ->).
  assert (forall ix, InRange value ix = true ->
            InRange (value ++ extra) ix = true /\
            TagAt (value ++ extra) ix = TagAt value ix) as Hsame.
  { intros ix [Hf Ht]%InRange_spec.
    assert (FamilyTags (value ++ extra) (FamilyOffset ix)
            = FamilyTags value (FamilyOffset ix)) as Htags.
    { unfold FamilyTags. rewrite lookup_app_l; [reflexivity|]. unfold len in Hf. lia. }
    split.
    - apply InRange_spec. rewrite Htags. split; [|assumption].
      unfold len in *. rewrite length_app. lia.
    - unfold TagAt. now rewrite Htags. }
  rewrite Find_all_ok.
  - assert (map (entryOf (value ++ extra)) e = map (entryOf value) e) as ->;
      [|reflexivity].
    apply map_ext_in. intros ix Hix.
    unfold partition.entryOf.
    assert (TagAt (value ++ extra) ix = TagAt value ix) as ->; [|reflexivity].
    apply Hsame. rewrite Forall_forall in Hrange. apply Hrange.
    now apply list_elem_of_In.
  - eapply Forall_impl; [exact Hrange|]. intros ix Hix. now apply Hsame.
  - rewrite Forall_forall in *. intros ix Hix. unfold partition.Marshals.
    destruct (Hsame ix (Hrange ix Hix)) as [_ ->]. now apply Hmar.
Qed.

Lemma Find_loop_marshal_error (value : Payload) (ix : TagLocator)
    (post : EntityLocator) (entry : tsdb.Entry) (errMarshal : error)
    (pre : EntityLocator) :
  forall (n : nat) entity,
    Forall (fun p => InRange value p = true) pre ->
    Forall (Marshals value) pre ->
    InRange value ix = true ->
    MarshalIndexFieldValue (TagAt value ix) = (entry, Some errMarshal) ->
    (n + length pre <= length entity)%nat ->
    Find_loop value (Z.of_nat n) (pre ++ ix :: post) entity
    = Returns (None, Some errMarshal).
Proof.
  induction pre as [|p pre IH]; intros n entity Hrange Hmar Hix Herr Hlen.
  - cbn [app partition.Find_loop].
    rewrite GetTagByOffset_in_range by assumption. cbn [mbind Outcome_bind].
    now rewrite Herr.
  - apply Forall_cons in Hrange as [Hp Hrange].
    apply Forall_cons in Hmar as [Hm Hmar].
    cbn [app partition.Find_loop length] in *.
    rewrite GetTagByOffset_in_range by assumption. cbn [mbind Outcome_bind].
    unfold partition.Marshals in Hm.
    destruct (MarshalIndexFieldValue (TagAt value p)) as [entryp errp].
    simpl in Hm. subst errp.
    rewrite store_in_range by (unfold len; lia). cbn [mbind Outcome_bind].
    rewrite Nat2Z.id.
    replace (Z.of_nat n + 1) with (Z.of_nat (S n)) by lia.
    apply IH; try assumption. rewrite length_insert. lia.
Qed.

(** X6.  [Find] stops at the first pair that fails: when the pairs before
    a pair are in range and marshal, and that pair is in range but its tag
    does not marshal, [Find] returns no entity and the marshalling error of
    that pair, whatever comes after it in the locator. *)
Theorem Find_marshal_error (pre post : EntityLocator) (ix : TagLocator)
    (value : Payload) (entry : tsdb.Entry) (errMarshal : error) :
  Forall (fun p => InRange value p = true) pre ->
  Forall (Marshals value) pre ->
  InRange value ix = true ->
  MarshalIndexFieldValue (TagAt value ix) = (entry, Some errMarshal) ->
  Find (pre ++ ix :: post) value = Returns (None, Some errMarshal).
Proof.
  intros Hrange Hmar Hix Herr. unfold partition.Find.
  apply (Find_loop_marshal_error value ix post entry errMarshal pre 0);
    try assumption.
  rewrite length_replicate, length_app. simpl. lia.
Qed.

End FindMore.

(** ** A locator pair out of range *)

Section FindOutOfRange.

Context {TagValue : Type}.
Variable MarshalIndexFieldValue : option TagValue -> tsdb.Entry * option error.

Local Abbreviation Payload := (list (option (modelv1.TagFamilyForWrite TagValue))).
Local Abbreviation Find := (partition.Find MarshalIndexFieldValue).
Local Abbreviation Marshals := (partition.Marshals MarshalIndexFieldValue).

(** C4 (amended).  For every entity locator whose offsets are not negative
    and every payload, if some locator pair is out of range for the payload
    (its family offset, or its tag offset within that family), [Find] fails:
    it returns no entity and an error.  Take the first pair out of range,
    in the order of the locator.  If the tags of all the pairs before it
    marshal, the error is the MalformedElement error of that pair; if not,
    it is the marshalling error of the first pair whose tag does not
    marshal.  So a payload that misses the declared family index makes
    [Find] fail with MalformedElement when the tags of the pairs before the
    first pair out of range marshal. *)
Theorem Find_out_of_range_fails (e : EntityLocator) (value : Payload) :
  Forall (fun ix => 0 <= FamilyOffset ix /\ 0 <= TagOffset ix) e ->
  Exists (fun ix => InRange value ix = false) e ->
  exists pre ix post,
    e = pre ++ ix :: post /\
    Forall (fun p => InRange value p = true) pre /\
    InRange value ix = false /\
    (exists err, Find e value = Returns (None, Some err)) /\
    (Forall (Marshals value) pre ->
       Find e value = Returns (None, Some (OffsetError value ix)) /\
       IsMalformedElement (OffsetError value ix) = true) /\
    (forall pre1 p pre2 entry errMarshal,
       pre = pre1 ++ p :: pre2 ->
       Forall (Marshals value) pre1 ->
       MarshalIndexFieldValue (TagAt value p) = (entry, Some errMarshal) ->
       Find e value = Returns (None, Some errMarshal)).
Proof.
  intros Hnonneg Hex.
  destruct (first_out_of_range value e Hex) as (pre & ix & post & -> & Hpre & Hix).
  exists pre, ix, post.
  assert (0 <= FamilyOffset ix /\ 0 <= TagOffset ix) as [Hf Ht].
  { rewrite Forall_forall in Hnonneg. apply Hnonneg.
    apply elem_of_app. right. constructor. }
  destruct (Find_loop_first_out_of_range MarshalIndexFieldValue value ix post pre 0
              (replicate (length (pre ++ ix :: post)) []) Hpre Hf Ht Hix)
    as (err & Hrun & Herr).
  { rewrite length_replicate, length_app. lia. }
  fold (Find (pre ++ ix :: post) value) in Hrun.
  repeat split; try assumption.
  - now exists err.
  - destruct Herr as [->|(p & Hp & Hpm)]; [exact Hrun|].
    rewrite Forall_forall in H. specialize (H p Hp).
    unfold partition.Marshals in H. congruence.
  - unfold OffsetError. now destruct (len value <=? FamilyOffset ix).
  - intros pre1 p pre2 entry errMarshal -> Hpre1 Hmarshal.
    apply Forall_app in Hpre as [Hin1 Hin2].
    apply Forall_cons in Hin2 as [Hp _].
    rewrite <- app_assoc. cbn [app]. unfold partition.Find.
    apply (Find_loop_marshal_error MarshalIndexFieldValue value p
             (pre2 ++ ix :: post) entry errMarshal pre1 0); try assumption.
    rewrite length_replicate, length_app. simpl. lia.
Qed.

End FindOutOfRange.

Lemma Find_out_of_range_fails_witness :
  exists pre ix post,
    [{| FamilyOffset := 0; TagOffset := 0 |}; {| FamilyOffset := 0; TagOffset := 2 |};
     {| FamilyOffset := 1; TagOffset := 0 |}; {| FamilyOffset := 0; TagOffset := 1 |}]
    = pre ++ ix :: post /\
    Forall (fun p => InRange scenario.payload p = true) pre /\
    InRange scenario.payload ix = false /\
    (exists err,
       partition.Find pbv1.MarshalIndexFieldValue
         [{| FamilyOffset := 0; TagOffset := 0 |}; {| FamilyOffset := 0; TagOffset := 2 |};
          {| FamilyOffset := 1; TagOffset := 0 |}; {| FamilyOffset := 0; TagOffset := 1 |}]
         scenario.payload = Returns (None, Some err)) /\
    (Forall (partition.Marshals pbv1.MarshalIndexFieldValue scenario.payload) pre ->
       partition.Find pbv1.MarshalIndexFieldValue
         [{| FamilyOffset := 0; TagOffset := 0 |}; {| FamilyOffset := 0; TagOffset := 2 |};
          {| FamilyOffset := 1; TagOffset := 0 |}; {| FamilyOffset := 0; TagOffset := 1 |}]
         scenario.payload = Returns (None, Some (OffsetError scenario.payload ix)) /\
       IsMalformedElement (OffsetError scenario.payload ix) = true) /\
    (forall pre1 p pre2 entry errMarshal,
       pre = pre1 ++ p :: pre2 ->
       Forall (partition.Marshals pbv1.MarshalIndexFieldValue scenario.payload) pre1 ->
       pbv1.MarshalIndexFieldValue (TagAt scenario.payload p) = (entry, Some errMarshal) ->
       partition.Find pbv1.MarshalIndexFieldValue
         [{| FamilyOffset := 0; TagOffset := 0 |}; {| FamilyOffset := 0; TagOffset := 2 |};
          {| FamilyOffset := 1; TagOffset := 0 |}; {| FamilyOffset := 0; TagOffset := 1 |}]
         scenario.payload = Returns (None, Some errMarshal)).
Proof.
  apply (Find_out_of_range_fails pbv1.MarshalIndexFieldValue).
  - repeat constructor; simpl; lia.
  - do 2 apply Exists_cons_tl. apply Exists_cons_hd. reflexivity.
Defined.

Example Find_missing_family_malformed :
  partition.Find pbv1.MarshalIndexFieldValue
    [{| FamilyOffset := 0; TagOffset := 0 |}; {| FamilyOffset := 0; TagOffset := 2 |};
     {| FamilyOffset := 1; TagOffset := 0 |}; {| FamilyOffset := 0; TagOffset := 1 |}]
    scenario.payload
  = Returns (None, Some partition.ErrFamilyOffset).
Proof. reflexivity. Qed.

Example Find_marshal_error_before_missing_family :
  partition.Find pbv1.MarshalIndexFieldValue
    [{| FamilyOffset := 0; TagOffset := 0 |}; {| FamilyOffset := 1; TagOffset := 0 |}]
    scenario.payloadNilTag
  = Returns (None, Some (ErrForeign "the tag type can not be an index field value")).
Proof. reflexivity. Qed.

Lemma Find_entries_witness :
  exists entries,
    Some [scenario.svcA; scenario.i1] = Some entries /\
    len entries = len scenario.locator /\
    forall (i : nat) ix,
      scenario.locator !! i = Some ix ->
      entries !! i = Some (pbv1.MarshalIndexFieldValue (TagAt scenario.payload ix)).1.
Proof.
  apply (Find_entries pbv1.MarshalIndexFieldValue scenario.locator scenario.payload
           (Some [scenario.svcA; scenario.i1])).
  reflexivity.
Defined.

Lemma Find_never_panics_witness :
  partition.Find pbv1.MarshalIndexFieldValue
    [{| FamilyOffset := 0; TagOffset := 0 |}; {| FamilyOffset := 3; TagOffset := 2 |}]
    scenario.payloadNilTag
  <> Panics.
Proof.
  apply (Find_never_panics pbv1.MarshalIndexFieldValue).
  repeat constructor; simpl; lia.
Defined.

Lemma Find_payload_extension_witness :
  partition.Find pbv1.MarshalIndexFieldValue scenario.locator
    (scenario.payload ++ scenario.payloadNilTag)
  = Returns (Some [scenario.svcA; scenario.i1], None).
Proof.
  apply (Find_payload_extension pbv1.MarshalIndexFieldValue scenario.locator
           scenario.payload scenario.payloadNilTag).
  reflexivity.
Defined.

Lemma Find_marshal_error_witness :
  partition.Find pbv1.MarshalIndexFieldValue
    ([{| FamilyOffset := 0; TagOffset := 0 |}]
     ++ {| FamilyOffset := 1; TagOffset := 0 |}
     :: [{| FamilyOffset := 7; TagOffset := 7 |}])
    (scenario.payload ++ scenario.payloadNilTag)
  = Returns (None, Some (ErrForeign "the tag type can not be an index field value")).
Proof.
  apply (Find_marshal_error pbv1.MarshalIndexFieldValue
           [{| FamilyOffset := 0; TagOffset := 0 |}]
           [{| FamilyOffset := 7; TagOffset := 7 |}]
           {| FamilyOffset := 1; TagOffset := 0 |}
           (scenario.payload ++ scenario.payloadNilTag) []).
  - repeat constructor.
  - repeat constructor.
  - reflexivity.
  - reflexivity.
Defined.

Section OffsetMore.

Context {TagValue : Type}.

Local Abbreviation Payload := (list (option (modelv1.TagFamilyForWrite TagValue))).

(** X4.  The guards of [GetTagByOffset] have no lower bound: with a
    negative family offset, or with a family offset in range and a negative
    tag offset, it panics on the index expression instead of returning a
    MalformedElement error. *)
Theorem GetTagByOffset_negative_panics (value : Payload) (fIndex tIndex : Z) :
  fIndex < 0 \/ (0 <= fIndex < len value /\ tIndex < 0) ->
  GetTagByOffset value fIndex tIndex = Panics.
Proof.
  intros Hneg. unfold GetTagByOffset.
  pose proof (len_nonneg value) as Hlen.
  destruct (len value <=? fIndex) eqn:Hge; [lia|].
  destruct Hneg as [Hf|[Hf Ht]].
  - unfold index. destruct (fIndex <? 0) eqn:Hlt; [reflexivity|lia].
  - destruct (index_in_range value fIndex Hf) as (family & _ & ->).
    cbn [mbind Outcome_bind].
    pose proof (len_nonneg (modelv1.GetTags family)) as Htags.
    destruct (len (modelv1.GetTags family) <=? tIndex) eqn:Hge'; [lia|].
    unfold index. destruct (tIndex <? 0) eqn:Hlt; [reflexivity|lia].
Qed.

End OffsetMore.

Lemma GetTagByOffset_negative_panics_witness :
  partition.GetTagByOffset scenario.payload 0 (-1) = Panics.
Proof.
  apply (GetTagByOffset_negative_panics scenario.payload 0 (-1)).
  right. split; [split; [lia|reflexivity]|lia].
Defined.

Section BuiltLocator.

Context {TagValue TagFamilySpec TagSpec : Type}.
Variable FindTagByName : list TagFamilySpec -> string -> Z * Z * option TagSpec.
Variable MarshalIndexFieldValue : option TagValue -> tsdb.Entry * option error.

Local Abbreviation Payload := (list (option (modelv1.TagFamilyForWrite TagValue))).

Local Abbreviation nonNegative := (resolvesNonNegative FindTagByName).

Lemma omap_resolve_nonneg (families : list TagFamilySpec) (names : list string) :
  Forall (nonNegative families) names ->
  Forall (fun ix => 0 <= FamilyOffset ix /\ 0 <= TagOffset ix)
    (omap (resolve FindTagByName families) names).
Proof.
  induction 1 as [|name names Hname _ IH]; csimpl; [constructor|].
  unfold resolve at 1. unfold resolvesNonNegative in Hname.
  destruct (FindTagByName families name) as [[fIndex tIndex] [tag|]]; csimpl.
  - constructor; assumption.
  - assumption.
Qed.

(** X7.  A locator built by [NewEntityLocator] is safe to use on any
    payload: when the offsets that [FindTagByName] answers for the declared
    names are not negative, [Find] with the built locator never panics,
    whatever the payload. *)
Theorem Find_built_locator_never_panics (families : list TagFamilySpec)
    (entity : option databasev1.Entity) (value : Payload) :
  Forall (nonNegative families) (databasev1.GetTagNames entity) ->
  partition.Find MarshalIndexFieldValue
    (NewEntityLocator FindTagByName families entity) value <> Panics.
Proof.
  intros Hnames. unfold NewEntityLocator, partition.Find.
  rewrite NewEntityLocator_fold. cbn [app].
  apply (Find_loop_returns MarshalIndexFieldValue value _ 0).
  - now apply omap_resolve_nonneg.
  - rewrite length_replicate. simpl. lia.
Qed.

End BuiltLocator.

Lemma Find_built_locator_never_panics_witness :
  partition.Find pbv1.MarshalIndexFieldValue
    (NewEntityLocator pbv1.FindTagByName scenario.families scenario.entity)
    scenario.payloadNilTag
  <> Panics.
Proof.
  apply (Find_built_locator_never_panics pbv1.FindTagByName pbv1.MarshalIndexFieldValue).
  repeat constructor; vm_compute; discriminate.
Defined.

(** ** The liaison: series events and the write handler *)

(** X8.  The latest series event wins, and messages of another type leave
    it in place: after any deliveries, then a series event, then messages
    whose data are not bytes, [seriesEventData] is that series event. *)
Theorem Rev_latest_event_wins (before after : list grpc.MessageData)
    (ev : grpc.SeriesEvent) :
  Forall (fun m => m = grpc.DataOther) after ->
  grpc.delivered (before ++ grpc.DataBytes ev :: after) = Some ev.
Proof.
  intros Hafter. unfold grpc.delivered.
  rewrite fold_left_app. cbn [fold_left grpc.Rev].
  induction Hafter as [|m after -> _ IH]; [reflexivity|exact IH].
Qed.

Lemma Rev_latest_event_wins_witness :
  grpc.delivered
    ([grpc.DataBytes scenario.eventNoId; grpc.DataOther]
     ++ grpc.DataBytes scenario.eventService :: [grpc.DataOther; grpc.DataOther])
  = Some scenario.eventService.
Proof.
  apply (Rev_latest_event_wins [grpc.DataBytes scenario.eventNoId; grpc.DataOther]
           [grpc.DataOther; grpc.DataOther] scenario.eventService).
  repeat constructor.
Defined.

Section WriteMore.

Context {Metadata Schema WriteEntity : Type}.
Variable MetaData : WriteEntity -> Metadata.
Variable BuildTraceSchema : Metadata -> option Schema * option error.
Variable FieldSubscript : Schema -> string -> bool * Z.
Variable EntityFields : WriteEntity -> Z -> bool.
Variable Send : nat -> option error.

Local Abbreviation Write :=
  (grpc.Write MetaData BuildTraceSchema FieldSubscript EntityFields Send).
Local Abbreviation Write_loop :=
  (grpc.Write_loop MetaData BuildTraceSchema FieldSubscript EntityFields Send).
Local Abbreviation WriteRun :=
  (grpc.WriteRun MetaData BuildTraceSchema FieldSubscript EntityFields Send).
Local Abbreviation WriteRun_loop :=
  (grpc.WriteRun_loop MetaData BuildTraceSchema FieldSubscript EntityFields Send).
Local Abbreviation answeredUnder :=
  (answered MetaData BuildTraceSchema FieldSubscript EntityFields).

Lemma Write_loop_answered (ev : grpc.SeriesEvent)
    (rest : list (@grpc.RecvResult WriteEntity)) (pre : list (@grpc.RecvResult WriteEntity)) :
  forall sent : nat,
    Forall (answeredUnder ev) pre ->
    (forall n : nat, (sent <= n < sent + length pre)%nat -> Send n = None) ->
    Write_loop (Some ev) (pre ++ rest) sent
    = Write_loop (Some ev) rest (sent + length pre).
Proof.
  induction pre as [|request pre IH]; intros sent Hpre Hsend.
  - simpl. now rewrite Nat.add_0_r.
  - apply Forall_cons in Hpre as [Hrequest Hpre].
    destruct request as [writeEntity|err]; [|contradiction].
    destruct Hrequest as [Hschema Hcheck].
    cbn [app grpc.Write_loop length].
    destruct (BuildTraceSchema (MetaData writeEntity)) as [schema ruleError].
    simpl in Hschema, Hcheck. subst ruleError.
    rewrite Hcheck. cbn [mbind Outcome_bind].
    rewrite Hsend by (simpl; lia).
    rewrite IH; [f_equal; simpl; lia|assumption|].
    intros n Hn. apply Hsend. simpl. lia.
Qed.

(** X9.  Every request is answered once: under a delivered series event,
    when each request is a write whose schema builds and whose series id
    fields are found, and the sends succeed, [Write] sends one response for
    each request and returns nil at the end of the stream. *)
Theorem Write_answers_every_request (ev : grpc.SeriesEvent)
    (requests : list (@grpc.RecvResult WriteEntity)) :
  Forall (answeredUnder ev) requests ->
  (forall n : nat, (n < length requests)%nat -> Send n = None) ->
  Write (Some ev) requests = Returns (length requests, None).
Proof.
  intros Hrequests Hsend. unfold grpc.Write.
  rewrite <- (app_nil_r requests) at 1.
  rewrite Write_loop_answered; [reflexivity|assumption|].
  intros n Hn. apply Hsend. lia.
Qed.

(** X10.  An error of [Recv] ends the handler with that error: the
    requests before it have been answered, the error is returned as it is,
    and what the stream holds after it is not read. *)
Theorem Write_recv_error (ev : grpc.SeriesEvent)
    (pre post : list (@grpc.RecvResult WriteEntity)) (err : error) :
  Forall (answeredUnder ev) pre ->
  (forall n : nat, (n < length pre)%nat -> Send n = None) ->
  Write (Some ev) (pre ++ grpc.RecvError err :: post)
  = Returns (length pre, Some err).
Proof.
  intros Hpre Hsend. unfold grpc.Write.
  rewrite Write_loop_answered; [reflexivity|assumption|].
  intros n Hn. apply Hsend. lia.
Qed.

(** X11.  A write whose schema does not build ends the handler with the
    error of the analyzer: no response is sent for it, and the later
    requests are not read. *)
Theorem Write_rule_error (ev : grpc.SeriesEvent)
    (pre post : list (@grpc.RecvResult WriteEntity)) (writeEntity : WriteEntity)
    (ruleError : error) :
  Forall (answeredUnder ev) pre ->
  (forall n : nat, (n < length pre)%nat -> Send n = None) ->
  (BuildTraceSchema (MetaData writeEntity)).2 = Some ruleError ->
  Write (Some ev) (pre ++ grpc.RecvEntity writeEntity :: post)
  = Returns (length pre, Some ruleError).
Proof.
  intros Hpre Hsend Hrule. unfold grpc.Write.
  rewrite Write_loop_answered; [|assumption|intros n Hn; apply Hsend; lia].
  cbn [grpc.Write_loop].
  destruct (BuildTraceSchema (MetaData writeEntity)) as [schema err].
  simpl in Hrule. now subst err.
Qed.

(** X12.  A write that lacks a field of the composite series id ends the
    handler without an error and without a response: [Write] returns nil,
    as at the end of the stream, and the later requests are not read. *)
Theorem Write_missing_field_ends_silently (ev : grpc.SeriesEvent)
    (pre post : list (@grpc.RecvResult WriteEntity)) (writeEntity : WriteEntity) :
  Forall (answeredUnder ev) pre ->
  (forall n : nat, (n < length pre)%nat -> Send n = None) ->
  (BuildTraceSchema (MetaData writeEntity)).2 = None ->
  grpc.checkSeriesId FieldSubscript EntityFields
    (BuildTraceSchema (MetaData writeEntity)).1 writeEntity
    (grpc.FieldNamesCompositeSeriesId ev) = Returns false ->
  Write (Some ev) (pre ++ grpc.RecvEntity writeEntity :: post)
  = Returns (length pre, None).
Proof.
  intros Hpre Hsend Hschema Hcheck. unfold grpc.Write.
  rewrite Write_loop_answered; [|assumption|intros n Hn; apply Hsend; lia].
  cbn [grpc.Write_loop].
  destruct (BuildTraceSchema (MetaData writeEntity)) as [schema err].
  simpl in Hschema, Hcheck. subst err. now rewrite Hcheck.
Qed.

(** X13.  A failed [Send] ends the handler with the error of the send:
    the responses before it have been sent, and the later requests are not
    read. *)
Theorem Write_send_error (ev : grpc.SeriesEvent)
    (pre post : list (@grpc.RecvResult WriteEntity))
    (request : @grpc.RecvResult WriteEntity) (errSend : error) :
  Forall (answeredUnder ev) pre ->
  answeredUnder ev request ->
  (forall n : nat, (n < length pre)%nat -> Send n = None) ->
  Send (length pre) = Some errSend ->
  Write (Some ev) (pre ++ request :: post) = Returns (length pre, Some errSend).
Proof.
  intros Hpre Hrequest Hsend Hfail. unfold grpc.Write.
  rewrite Write_loop_answered; [|assumption|intros n Hn; apply Hsend; lia].
  destruct request as [writeEntity|err]; [|contradiction].
  destruct Hrequest as [Hschema Hcheck].
  cbn [grpc.Write_loop].
  destruct (BuildTraceSchema (MetaData writeEntity)) as [schema ruleError].
  simpl in Hschema, Hcheck. subst ruleError.
  rewrite Hcheck. cbn [mbind Outcome_bind]. simpl. now rewrite Hfail.
Qed.

Lemma WriteRun_loop_first_turn (steps : list (@grpc.Step WriteEntity)) :
  forall seriesEventData atTurn answer later sent,
    grpc.turnsFrom seriesEventData steps = (atTurn, answer) :: later ->
    exists rest,
      WriteRun_loop seriesEventData steps sent
      = WriteRun_loop atTurn (grpc.Recv answer :: rest) sent /\
      grpc.turnsFrom atTurn rest = later.
Proof.
  induction steps as [|step steps IH]; intros g atTurn answer later sent Hturns;
    [discriminate|].
  destruct step as [message|answer'].
  - simpl in Hturns |- *. now apply IH.
  - simpl in Hturns. injection Hturns as -> -> Hlater. now exists steps.
Qed.

Lemma WriteRun_loop_responses (steps : list (@grpc.Step WriteEntity)) :
  forall seriesEventData (sent n : nat) (err : option error),
    WriteRun_loop seriesEventData steps sent = Returns (n, err) ->
    exists pre rest,
      grpc.turnsFrom seriesEventData steps = pre ++ rest /\
      n = (sent + length pre)%nat /\
      (forall i : nat, (sent <= i < n)%nat -> Send i = None) /\
      Forall (fun turn => exists ev, turn.1 = Some ev /\ answeredUnder ev turn.2) pre /\
      match rest with
      | [] => err = None
      | stop :: _ =>
          forall steps' seriesEventData' later,
            grpc.turnsFrom seriesEventData' steps' = pre ++ stop :: later ->
            WriteRun_loop seriesEventData' steps' sent = Returns (n, err)
      end.
Proof.
  induction steps as [|step steps IH]; intros g sent n err H.
  - simpl in H. injection H as <- <-. exists [], []. simpl.
    repeat split; [lia|intros i Hi; lia|constructor].
  - destruct step as [message|[writeEntity|errRecv]].
    + simpl in H |- *. now apply IH.
    + cbn [grpc.WriteRun_loop] in H.
      destruct (BuildTraceSchema (MetaData writeEntity)) as [schema [ruleError|]] eqn:Hbuild.
      { injection H as <- <-.
        exists [], ((g, grpc.RecvEntity writeEntity) :: grpc.turnsFrom g steps).
        repeat split; [simpl; lia|intros i Hi; lia|constructor|].
        intros steps' g' later Hturns. simpl in Hturns.
        destruct (WriteRun_loop_first_turn _ _ _ _ _ sent Hturns) as (rest & -> & _).
        cbn [grpc.WriteRun_loop]. now rewrite Hbuild. }
      destruct g as [ev|]; [|discriminate].
      destruct (grpc.checkSeriesId FieldSubscript EntityFields schema writeEntity
                  (grpc.FieldNamesCompositeSeriesId ev)) as [[|]|] eqn:Hcheck;
        cbn [mbind Outcome_bind] in H; [| |discriminate].
      * destruct (Send sent) as [errSend|] eqn:Hsent.
        { injection H as <- <-.
          exists [], ((Some ev, grpc.RecvEntity writeEntity) :: grpc.turnsFrom (Some ev) steps).
          repeat split; [simpl; lia|intros i Hi; lia|constructor|].
          intros steps' g' later Hturns. simpl in Hturns.
          destruct (WriteRun_loop_first_turn _ _ _ _ _ sent Hturns) as (rest & -> & _).
          cbn [grpc.WriteRun_loop]. rewrite Hbuild, Hcheck.
          cbn [mbind Outcome_bind]. now rewrite Hsent. }
        apply IH in H as (pre & rest & Hturns & -> & Hsend & Hpre & Hrest).
        exists ((Some ev, grpc.RecvEntity writeEntity) :: pre), rest.
        split; [simpl; now rewrite Hturns|].
        split; [simpl; lia|].
        split.
        { intros i Hi. destruct (decide (i = sent)) as [->|Hne]; [exact Hsent|].
          apply Hsend. lia. }
        split.
        { constructor; [|exact Hpre]. exists ev. split; [reflexivity|].
          unfold answered. cbn [snd]. rewrite Hbuild. now split. }
        destruct rest as [|stop rest]; [exact Hrest|].
        intros steps' g' later Hturns'. simpl in Hturns'.
        destruct (WriteRun_loop_first_turn _ _ _ _ _ sent Hturns') as (rest' & -> & Hlater).
        cbn [grpc.WriteRun_loop]. rewrite Hbuild, Hcheck.
        cbn [mbind Outcome_bind]. rewrite Hsent.
        replace (sent + length ((Some ev, grpc.RecvEntity writeEntity) :: pre))%nat
          with (S sent + length pre)%nat by (simpl; lia).
        now apply (Hrest rest' (Some ev) later).
      * injection H as <- <-.
        exists [], ((Some ev, grpc.RecvEntity writeEntity) :: grpc.turnsFrom (Some ev) steps).
        repeat split; [simpl; lia|intros i Hi; lia|constructor|].
        intros steps' g' later Hturns. simpl in Hturns.
        destruct (WriteRun_loop_first_turn _ _ _ _ _ sent Hturns) as (rest & -> & _).
        cbn [grpc.WriteRun_loop]. now rewrite Hbuild, Hcheck.
    + cbn [grpc.WriteRun_loop] in H. injection H as <- <-.
      exists [], ((g, grpc.RecvError errRecv) :: grpc.turnsFrom g steps).
      repeat split; [simpl; lia|intros i Hi; lia|constructor|].
      intros steps' g' later Hturns. simpl in Hturns.
      now destruct (WriteRun_loop_first_turn _ _ _ _ _ sent Hturns) as (rest & -> & _).
Qed.

(** X14.  Every response of [Write] answers a request it has received.
    When a run of the handler, with the bus delivering between its turns,
    returns after [n] responses, the first [n] answers of [Recv] were
    writes and each was answered in its turn: under the series event
    delivered by then its schema built, its series id fields were found
    and the send succeeded.  The handler has read at most one answer more,
    the one it stopped at: every run that agrees on these [n + 1] turns
    ends the same way, whatever follows them.  If there is no such answer,
    the stream ended and [Write] returns nil.  So the responses sent
    never exceed the requests received. *)
Theorem WriteRun_responses_answer_requests (steps : list (@grpc.Step WriteEntity))
    (n : nat) (err : option error) :
  WriteRun steps = Returns (n, err) ->
  exists pre rest,
    grpc.turns steps = pre ++ rest /\
    length pre = n /\
    (forall i : nat, (i < n)%nat -> Send i = None) /\
    Forall (fun turn => exists ev, turn.1 = Some ev /\ answeredUnder ev turn.2) pre /\
    match rest with
    | [] => err = None
    | stop :: _ =>
        forall steps' later,
          grpc.turns steps' = pre ++ stop :: later ->
          WriteRun steps' = Returns (n, err)
    end.
Proof.
  intros H. unfold grpc.WriteRun in H.
  apply WriteRun_loop_responses in H as (pre & rest & Hturns & -> & Hsend & Hpre & Hrest).
  exists pre, rest. repeat split; try assumption.
  - intros i Hi. apply Hsend. lia.
  - destruct rest as [|stop rest]; [exact Hrest|].
    intros steps' later Hturns'. now apply (Hrest steps' None later).
Qed.

(** X15.  Until a series event has been delivered, a write makes the
    handler panic: messages whose data are not bytes leave
    [seriesEventData] the nil pointer, and on the first write whose schema
    builds [Write] reads the length of its composite series id. *)
Theorem Write_before_event_panics (messages : list grpc.MessageData)
    (writeEntity : WriteEntity) (rest : list (@grpc.RecvResult WriteEntity)) :
  Forall (fun m => m = grpc.DataOther) messages ->
  (BuildTraceSchema (MetaData writeEntity)).2 = None ->
  Write (grpc.delivered messages) (grpc.RecvEntity writeEntity :: rest) = Panics.
Proof.
  intros Hmessages Hschema.
  assert (forall g, fold_left grpc.Rev messages g = g) as Hkept.
  { induction Hmessages as [|m messages -> _ IH]; intros g; [reflexivity|apply IH]. }
  unfold grpc.delivered. rewrite Hkept.
  unfold grpc.Write. cbn [grpc.Write_loop].
  destruct (BuildTraceSchema (MetaData writeEntity)) as [schema err].
  simpl in Hschema. now subst err.
Qed.

End WriteMore.

Lemma Write_answers_every_request_witness :
  scenario.Write (Some scenario.eventService)
    [grpc.RecvEntity (["service"], Some 1); grpc.RecvEntity (["service"; "zone"], Some 2)]
  = Returns (2%nat, None).
Proof.
  apply (Write_answers_every_request fst (fun metadata => (Some metadata, None))
           grpc.sampleSubscript grpc.sampleFields (fun _ => None) scenario.eventService
           [grpc.RecvEntity (["service"], Some 1);
            grpc.RecvEntity (["service"; "zone"], Some 2)]).
  - repeat constructor.
  - intros n _. reflexivity.
Defined.

Lemma Write_recv_error_witness :
  scenario.Write (Some scenario.eventService)
    ([grpc.RecvEntity (["service"], Some 1)]
     ++ grpc.RecvError (ErrForeign "connection reset") :: scenario.requests)
  = Returns (1%nat, Some (ErrForeign "connection reset")).
Proof.
  apply (Write_recv_error fst (fun metadata => (Some metadata, None))
           grpc.sampleSubscript grpc.sampleFields (fun _ => None) scenario.eventService
           [grpc.RecvEntity (["service"], Some 1)] scenario.requests).
  - repeat constructor.
  - intros n _. reflexivity.
Defined.

Lemma Write_rule_error_witness :
  grpc.Write fst
    (fun metadata : list string =>
       match metadata with
       | [] => (None, Some (ErrForeign "no such series"))
       | _ => (Some metadata, None)
       end)
    grpc.sampleSubscript grpc.sampleFields (fun _ => None)
    (Some scenario.eventService)
    ([grpc.RecvEntity (["service"], Some 1)]
     ++ grpc.RecvEntity ([], Some 1) :: scenario.requests)
  = Returns (1%nat, Some (ErrForeign "no such series")).
Proof.
  apply (Write_rule_error fst _ grpc.sampleSubscript grpc.sampleFields (fun _ => None)
           scenario.eventService [grpc.RecvEntity (["service"], Some 1)]
           scenario.requests ([], Some 1)).
  - repeat constructor.
  - intros n _. reflexivity.
  - reflexivity.
Defined.

Lemma Write_missing_field_ends_silently_witness :
  scenario.Write (Some scenario.eventService)
    ([grpc.RecvEntity (["service"], Some 1)]
     ++ grpc.RecvEntity (["service"], None) :: [grpc.RecvEntity (["service"], Some 1)])
  = Returns (1%nat, None).
Proof.
  apply (Write_missing_field_ends_silently fst (fun metadata => (Some metadata, None))
           grpc.sampleSubscript grpc.sampleFields (fun _ => None) scenario.eventService
           [grpc.RecvEntity (["service"], Some 1)]
           [grpc.RecvEntity (["service"], Some 1)] (["service"], None)).
  - repeat constructor.
  - intros n _. reflexivity.
  - reflexivity.
  - reflexivity.
Defined.

Lemma Write_send_error_witness :
  grpc.Write fst (fun metadata : list string => (Some metadata, None))
    grpc.sampleSubscript grpc.sampleFields
    (fun n => if Nat.eqb n 1 then Some (ErrForeign "stream closed") else None)
    (Some scenario.eventService)
    ([grpc.RecvEntity (["service"], Some 1)]
     ++ grpc.RecvEntity (["service"], Some 2) :: scenario.requests)
  = Returns (1%nat, Some (ErrForeign "stream closed")).
Proof.
  apply (Write_send_error fst (fun metadata => (Some metadata, None))
           grpc.sampleSubscript grpc.sampleFields _ scenario.eventService
           [grpc.RecvEntity (["service"], Some 1)] scenario.requests
           (grpc.RecvEntity (["service"], Some 2))).
  - repeat constructor.
  - repeat constructor.
  - intros n Hn. destruct n; [reflexivity|simpl in Hn; lia].
  - reflexivity.
Defined.

Lemma WriteRun_responses_answer_requests_witness :
  exists pre rest,
    grpc.turns
      [grpc.Deliver (grpc.DataBytes scenario.eventService);
       grpc.Recv (grpc.RecvEntity (["service"], Some 1));
       grpc.Deliver (grpc.DataBytes scenario.eventNoId);
       grpc.Deliver (grpc.DataBytes scenario.eventService);
       grpc.Recv (grpc.RecvEntity (["service"], None));
       grpc.Recv (grpc.RecvEntity (["service"], Some 1))]
    = pre ++ rest /\
    length pre = 1%nat /\
    (forall i : nat, (i < 1)%nat -> (fun _ : nat => @None error) i = None) /\
    Forall (fun turn =>
              exists ev, turn.1 = Some ev /\
                answered fst (fun metadata : list string => (Some metadata, None))
                  grpc.sampleSubscript grpc.sampleFields ev turn.2) pre /\
    match rest with
    | [] => @None error = None
    | stop :: _ =>
        forall steps' later,
          grpc.turns steps' = pre ++ stop :: later ->
          scenario.WriteRun steps' = Returns (1%nat, None)
    end.
Proof.
  apply (WriteRun_responses_answer_requests fst (fun metadata => (Some metadata, None))
           grpc.sampleSubscript grpc.sampleFields (fun _ => None)).
  reflexivity.
Defined.

(** A run as in X14: the second write lacks the field [service] and ends
    the handler, and the write after it is not read. *)
Example WriteRun_stops_at_missing_field :
  scenario.WriteRun
    [grpc.Deliver (grpc.DataBytes scenario.eventService);
     grpc.Recv (grpc.RecvEntity (["service"], Some 1));
     grpc.Deliver (grpc.DataBytes scenario.eventNoId);
     grpc.Deliver (grpc.DataBytes scenario.eventService);
     grpc.Recv (grpc.RecvEntity (["service"], None));
     grpc.Recv (grpc.RecvEntity (["service"], Some 1))]
  = Returns (1%nat, None).
Proof. reflexivity. Qed.

Lemma Write_before_event_panics_witness :
  scenario.Write (grpc.delivered [grpc.DataOther; grpc.DataOther])
    (grpc.RecvEntity (["service"], Some 1) :: scenario.requests)
  = Panics.
Proof.
  apply (Write_before_event_panics fst (fun metadata => (Some metadata, None))
           grpc.sampleSubscript grpc.sampleFields (fun _ => None)
           [grpc.DataOther; grpc.DataOther] (["service"], Some 1) scenario.requests).
  - repeat constructor.
  - reflexivity.
Defined.

(** ** The temporary space of a test *)

(** X16.  The clean-up of [Space] undoes the test: when the temporary
    directory is new (no path at or below it exists before), then whatever
    the test makes or removes below it, running [deferFunc] afterwards
    leaves the files exactly as they were before [Space]. *)
Theorem Space_cleanup_restores (tempName : string)
    (fs fs' : gmap string tsdb_test.FileKind) :
  (forall p, test.below tempName p = true -> fs !! p = None) ->
  (forall p, test.below tempName p = false ->
             fs' !! p = (tsdb_test.Space tempName fs).2 !! p) ->
  test.deferFunc (tsdb_test.Space tempName fs).1 fs' = fs.
Proof.
  intros Hfresh Houtside. apply map_eq. intros p.
  unfold test.deferFunc, test.RemoveAll, tsdb_test.Space in *. cbn [fst snd] in *.
  rewrite map_lookup_filter.
  destruct (test.below tempName p) eqn:Hbelow.
  - rewrite (Hfresh p Hbelow).
    destruct (fs' !! p) as [kind|]; [|reflexivity]. simpl.
    rewrite option_guard_False; [reflexivity|]. simpl. congruence.
  - rewrite (Houtside p Hbelow).
    rewrite lookup_insert_ne.
    + destruct (fs !! p) as [kind|]; [|reflexivity]. simpl.
      now rewrite option_guard_True.
    + intros <-. unfold test.below in Hbelow.
      now rewrite String.eqb_refl in Hbelow.
Qed.

Lemma Space_cleanup_restores_witness :
  test.deferFunc (tsdb_test.Space scenario.tempName ∅).1
    (<[tsdb_test.sampleShard scenario.tempName 0 := tsdb_test.Directory]>
       (tsdb_test.Space scenario.tempName ∅).2)
  = ∅.
Proof.
  apply (Space_cleanup_restores scenario.tempName ∅).
  - intros p _. apply lookup_empty.
  - intros p Hbelow. apply lookup_insert_ne. intros <-.
    vm_compute in Hbelow. discriminate.
Defined.

(** ** Stream ids *)

Lemma append_nil_l (s : string) : "" +:+ s = s.
Proof. reflexivity. Qed.

Lemma append_cons_l (a : ascii) (s t : string) :
  String a s +:+ t = String a (s +:+ t).
Proof. reflexivity. Qed.

Lemma append_colon_inj (name1 : string) :
  forall name2 group1 group2,
    hasColon name1 = false -> hasColon name2 = false ->
    name1 +:+ ":" +:+ group1 = name2 +:+ ":" +:+ group2 ->
    name1 = name2 /\ group1 = group2.
Proof.
  induction name1 as [|a name1 IH]; intros [|b name2] group1 group2 H1 H2 Heq;
    repeat (rewrite append_nil_l in Heq || rewrite append_cons_l in Heq);
    simpl in H1, H2.
  - injection Heq as ->. now split.
  - injection Heq as <- _. discriminate.
  - injection Heq as -> _. discriminate.
  - injection Heq as -> Heq.
    apply orb_false_iff in H1 as [_ H1]. apply orb_false_iff in H2 as [_ H2].
    destruct (IH name2 group1 group2 H1 H2 Heq) as [-> ->]. now split.
Qed.

(** X17.  Stream ids tell streams apart as long as names have no colon:
    two streams whose names have no [:] and whose ids from
    [formatStreamID] are equal have the same name and the same group. *)
Theorem formatStreamID_inj (name1 group1 name2 group2 : string) :
  hasColon name1 = false -> hasColon name2 = false ->
  stream.formatStreamID name1 group1 = stream.formatStreamID name2 group2 ->
  name1 = name2 /\ group1 = group2.
Proof.
  unfold stream.formatStreamID. apply append_colon_inj.
Qed.

Lemma formatStreamID_inj_witness :
  "sw" = "sw" /\ "default" = "default".
Proof.
  apply (formatStreamID_inj "sw" "default" "sw" "default"); reflexivity.
Defined.

Example formatStreamID_collision :
  stream.formatStreamID "a:b" "c" = stream.formatStreamID "a" "b:c".
Proof. reflexivity. Qed.

(** ** Declared names that do not resolve *)

Lemma omap_length_lt {A B} (f : A -> option B) (l : list A) :
  Exists (fun a => f a = None) l -> (length (omap f l) < length l)%nat.
Proof.
  induction 1 as [a l Ha|a l _ IH]; csimpl.
  - rewrite Ha. pose proof (omap_length_le f l). lia.
  - destruct (f a); csimpl; [lia|].
    pose proof (omap_length_le f l). lia.
Qed.

Section OmittedNames.

Context {TagValue TagFamilySpec TagSpec : Type}.
Variable FindTagByName : list TagFamilySpec -> string -> Z * Z * option TagSpec.
Variable MarshalIndexFieldValue : option TagValue -> tsdb.Entry * option error.

Local Abbreviation Payload := (list (option (modelv1.TagFamilyForWrite TagValue))).

(** X18.  The entity has one entry for each declared name that resolves,
    and none for the others: an entity that [Find] returns with a locator
    built by [NewEntityLocator] has as many entries as declared names
    resolve, so when a declared name does not resolve every entity is
    shorter than the declaration. *)
Theorem Find_entity_omits_unresolved (families : list TagFamilySpec)
    (entity : option databasev1.Entity) (value : Payload) (r : option tsdb.Entity) :
  partition.Find MarshalIndexFieldValue
    (NewEntityLocator FindTagByName families entity) value = Returns (r, None) ->
  exists entries,
    r = Some entries /\
    len entries
    = len (omap (resolve FindTagByName families) (databasev1.GetTagNames entity)) /\
    (Exists (fun tagName => resolve FindTagByName families tagName = None)
       (databasev1.GetTagNames entity) ->
     len entries < len (databasev1.GetTagNames entity)).
Proof.
  intros Hfind.
  destruct (Find_success MarshalIndexFieldValue _ value r Hfind) as (_ & _ & ->).
  eexists. split; [reflexivity|].
  assert (NewEntityLocator FindTagByName families entity
          = omap (resolve FindTagByName families) (databasev1.GetTagNames entity)) as ->
    by (unfold NewEntityLocator; now rewrite NewEntityLocator_fold).
  unfold len. rewrite length_map. split; [reflexivity|].
  intros Hex. apply (omap_length_lt _ _) in Hex. lia.
Qed.

End OmittedNames.

Lemma Find_entity_omits_unresolved_witness :
  exists entries,
    Some [scenario.svcA; scenario.i1] = Some entries /\
    len entries
    = len (omap (resolve pbv1.FindTagByName scenario.families)
             ["service"; "zone"; "instance"]) /\
    (Exists (fun tagName => resolve pbv1.FindTagByName scenario.families tagName = None)
       ["service"; "zone"; "instance"] ->
     len entries < len ["service"; "zone"; "instance"]).
Proof.
  apply (Find_entity_omits_unresolved pbv1.FindTagByName pbv1.MarshalIndexFieldValue
           scenario.families
           (Some {| databasev1.TagNames := ["service"; "zone"; "instance"] |})
           scenario.payload (Some [scenario.svcA; scenario.i1])).
  reflexivity.
Defined.
